(** * utils.h: a shallow embedding of the C utility header and its properties

    The header is a collection of small helpers around the C library:
    string helpers, a levelled logger with two process-wide variables,
    whole-file reading and a range-restricted random integer.

    Modelling conventions.
    - A [char] is an [ascii]; the terminator is [zero].
    - An array object is a [list ascii].  A read-only [const char *] is the
      view of its object from the pointer on (the list of the bytes that
      follow it); a pointer that is written through is an object together
      with a [Z] offset.  A [NULL] pointer is [None].
    - An access outside an object is undefined in C; the helpers return
      [None] there, so every function that touches memory is in [option].
    - [int] is 32 bits wide, carried by [Z] with the wrap-around written out;
      a division or remainder by zero has no result.
    - Code that talks to the operating system runs in the monad [M] over a
      [world] record holding the disk, the open streams, the heap, the clock
      and the two static variables of the logger. *)

From Stdlib Require Import ZArith Ascii String List.
From stdpp Require Import gmap strings list fin_maps.

Local Open Scope Z_scope.

(* ===================================================================== *)
(** ** Characters and C strings *)
(* ===================================================================== *)

Section CStrings.

(** The code of a character as [unsigned char]. *)
Definition code (c : ascii) : Z := Z.of_N (N_of_ascii c).

Definition is_nul (c : ascii) : bool := Ascii.eqb c zero.

(** [strlen]: the number of characters before the first terminator.  Running
    off the end of the object without meeting one is undefined. *)
Fixpoint strlen (v : list ascii) : option nat :=
  match v with
  | [] => None
  | c :: v' => if is_nul c then Some O else S <$> strlen v'
  end.

(** [strncmp]: compares at most [n] characters as unsigned chars and stops
    after a common terminator. *)
Fixpoint strncmp (a b : list ascii) (n : nat) {struct n} : option Z :=
  match n with
  | O => Some 0
  | S n' =>
      match a, b with
      | c1 :: a', c2 :: b' =>
          if negb (Ascii.eqb c1 c2) then Some (code c1 - code c2)
          else if is_nul c1 then Some 0
          else strncmp a' b' n'
      | _, _ => None
      end
  end.

(** [strcmp]: as [strncmp] without the bound. *)
Fixpoint strcmp (a b : list ascii) : option Z :=
  match a, b with
  | c1 :: a', c2 :: b' =>
      if negb (Ascii.eqb c1 c2) then Some (code c1 - code c2)
      else if is_nul c1 then Some 0
      else strcmp a' b'
  | _, _ => None
  end.

(** [bool str_starts_with(const char *str, const char *prefix)] *)
Definition str_starts_with (str prefix : option (list ascii)) : option bool :=
  match str, prefix with
  | Some s, Some p =>
      str_len ← strlen s;
      prefix_len ← strlen p;
      if (str_len <? prefix_len)%nat (* prefix_len > str_len *) then Some false
      else r ← strncmp s p prefix_len; Some (r =? 0)
  | _, _ => Some false
  end.

(** [bool str_ends_with(const char *str, const char *suffix)]; the pointer
    [str + str_len - suffix_len] is the view [drop (str_len - suffix_len)]. *)
Definition str_ends_with (str suffix : option (list ascii)) : option bool :=
  match str, suffix with
  | Some s, Some x =>
      str_len ← strlen s;
      suffix_len ← strlen x;
      if (str_len <? suffix_len)%nat (* suffix_len > str_len *) then Some false
      else r ← strcmp (drop (str_len - suffix_len) s) x; Some (r =? 0)
  | _, _ => Some false
  end.

(** A view [v] holds the C string [s]: the characters of [s], none of them
    the terminator, then a terminator, then whatever the object has left. *)
Definition no_nul (s : list ascii) : Prop := Forall (λ c, c ≠ zero) s.

Definition cstring (v s : list ascii) : Prop :=
  no_nul s ∧ ∃ rest, v = s ++ zero :: rest.

(** Literals. *)
Definition lit (s : string) : list ascii := list_ascii_of_string s.

(** The view of a literal: its characters and the terminator. *)
Definition c_lit (s : string) : list ascii := lit s ++ [zero].

End CStrings.

(* ===================================================================== *)
(** ** In-place trimming *)
(* ===================================================================== *)

Section Trim.

(** The test both loops of [str_trim] make on a character:
    [c == ' ' || c == '\t' || c == '\n' || c == '\r']. *)
Definition is_trim_space (c : ascii) : bool :=
  Ascii.eqb c " " || Ascii.eqb c "009" || Ascii.eqb c "010" || Ascii.eqb c "013".

(** [*p] for a pointer at offset [p] of the object [m]. *)
Definition load (m : list ascii) (p : Z) : option ascii :=
  if p <? 0 then None else m !! Z.to_nat p.

(** [*p = c]. *)
Definition store (m : list ascii) (p : Z) (c : ascii) : option (list ascii) :=
  if (0 <=? p) && (p <? Z.of_nat (length m))
  then Some (<[Z.to_nat p := c]> m) else None.

(** The read-only view of the object from offset [p] on. *)
Definition view (m : list ascii) (p : Z) : option (list ascii) :=
  if (0 <=? p) && (p <=? Z.of_nat (length m))
  then Some (drop (Z.to_nat p) m) else None.

Definition strlen_at (m : list ascii) (p : Z) : option nat :=
  v ← view m p; strlen v.

(** [memmove(dst, src, n)] inside one object: the [n] bytes at [src] are
    read first and then written at [dst], so overlap is harmless. *)
Definition memmove (m : list ascii) (dst src : Z) (n : nat)
  : option (list ascii) :=
  if (0 <=? dst) && (0 <=? src)
     && (dst + Z.of_nat n <=? Z.of_nat (length m))
     && (src + Z.of_nat n <=? Z.of_nat (length m))
  then Some (take (Z.to_nat dst) m
             ++ take n (drop (Z.to_nat src) m)
             ++ drop (Z.to_nat dst + n) m)
  else None.

(** The first loop: while [start] points at a character that is not the
    terminator and is one of the four trimmed ones, [start++]. *)
Fixpoint skip_leading (fuel : nat) (m : list ascii) (start : Z) : option Z :=
  match fuel with
  | O => None
  | S fuel' =>
      c ← load m start;
      if negb (is_nul c) && is_trim_space c
      then skip_leading fuel' m (start + 1)
      else Some start
  end.

(** The second loop: while [end > str] and [end] points at one of the four
    trimmed characters, write the terminator there and [end--]. *)
Fixpoint cut_trailing (fuel : nat) (m : list ascii) (str end_ : Z)
  : option (list ascii) :=
  match fuel with
  | O => None
  | S fuel' =>
      if end_ >? str then
        c ← load m end_;
        if is_trim_space c
        then m' ← store m end_ zero; cut_trailing fuel' m' str (end_ - 1)
        else Some m
      else Some m
  end.

(** [char *str_trim(char *str)] on the object [m] that [str] points into.
    The result is the object after the call and the returned pointer.  Each
    loop moves its pointer by one per round and stays inside the object, so
    [S (length m)] rounds of fuel are never used up.  For an empty string
    [end] is [str - 1]; the offset is formed but never dereferenced. *)
Definition str_trim (m : list ascii) (str : option Z)
  : option (list ascii * option Z) :=
  match str with
  | None => Some (m, None)
  | Some str =>
      start ← skip_leading (S (length m)) m str;
      m1 ← (if start =? str then Some m
            else n ← strlen_at m start; memmove m str start (n + 1));
      n ← strlen_at m1 str;
      let end_ := str + Z.of_nat n - 1 in
      m2 ← cut_trailing (S (length m)) m1 str end_;
      Some (m2, Some str)
  end.

(** The string an object holds at a pointer, as [strlen] delimits it. *)
Definition string_at (m : list ascii) (p : Z) : option (list ascii) :=
  v ← view m p; n ← strlen v; Some (take n v).

End Trim.

(* ===================================================================== *)
(** ** 32-bit [int] arithmetic and [random_int] *)
(* ===================================================================== *)

Section Random.

Definition INT_MIN : Z := - 2 ^ 31.
Definition INT_MAX : Z := 2 ^ 31 - 1.

Definition is_int (z : Z) : Prop := INT_MIN ≤ z ≤ INT_MAX.

(** Reduction of a mathematical result into the range of [int]. *)
Definition int_wrap (z : Z) : Z := (z + 2 ^ 31) `mod` 2 ^ 32 - 2 ^ 31.

Definition int_add (a b : Z) : Z := int_wrap (a + b).
Definition int_sub (a b : Z) : Z := int_wrap (a - b).

(** [a % b]: truncating remainder; no result for a zero divisor or for
    [INT_MIN % -1]. *)
Definition int_rem (a b : Z) : option Z :=
  if b =? 0 then None
  else if (a =? INT_MIN) && (b =? -1) then None
  else Some (Z.rem a b).

(** [int random_int(int min, int max)]; [r] is the value [rand()] returns in
    the body. *)
Definition random_int (r : Z) (min max : Z) : option Z :=
  let '(min, max) := if min >? max then (max, min) else (min, max) in
  q ← int_rem r (int_add (int_sub max min) 1);
  Some (int_add min q).

(** What the C library promises of [rand()]: a non-negative [int]. *)
Definition rand_value (r : Z) : Prop := 0 ≤ r ≤ INT_MAX.

End Random.

(* ===================================================================== *)
(** ** The process and its environment *)
(* ===================================================================== *)

Section World.

(** [typedef enum { LOG_DEBUG, ..., LOG_FATAL } LogLevel;] *)
Inductive LogLevel : Type :=
  | LOG_DEBUG
  | LOG_INFO
  | LOG_WARNING
  | LOG_ERROR
  | LOG_FATAL.

(** The value of an enumerator. *)
Definition level_num (l : LogLevel) : Z :=
  match l with
  | LOG_DEBUG => 0
  | LOG_INFO => 1
  | LOG_WARNING => 2
  | LOG_ERROR => 3
  | LOG_FATAL => 4
  end.

(** A non-null [FILE *]. *)
Inductive FILE : Type :=
  | stdout
  | stderr
  | fstream (id : nat).

#[global] Instance LogLevel_eq_dec : EqDecision LogLevel.
Proof. solve_decision. Defined.

#[global] Instance FILE_eq_dec : EqDecision FILE.
Proof. solve_decision. Defined.

(** A stream that [fopen] made: the path it is bound to, the output still in
    its buffer, and its read position. *)
Record stream : Type := {
  s_path : string;
  s_pending : string;
  s_pos : nat
}.

(** [static FILE *log_file] and [static LogLevel current_log_level]. *)
Record logger_vars : Type := {
  log_file : option FILE;
  current_log_level : LogLevel
}.

Record world : Type := {
  vars : logger_vars;
  (** regular files, by path *)
  disk : gmap string string;
  (** paths the system refuses to open for appending *)
  denied : gset string;
  (** paths the system refuses to open for reading *)
  unreadable : gset string;
  (** a path mapped to [k] delivers no byte at or after offset [k] *)
  faults : gmap string nat;
  (** the streams [fopen] made that are not closed *)
  streams : gmap nat stream;
  (** standard output: what reached the console, and the buffer *)
  out_shown : string;
  out_pending : string;
  (** standard error, unbuffered *)
  err_shown : string;
  (** allocated blocks, and the bytes the allocator can still hand out *)
  heap : gmap nat (list ascii);
  heap_room : nat;
  (** the content of fresh memory *)
  junk : ascii;
  (** the current local time as [strftime] renders it with
      [%Y-%m-%d %H:%M:%S] *)
  now : string
}.

Definition set_vars (w : world) (v : logger_vars) : world :=
  {| vars := v; disk := disk w; denied := denied w; unreadable := unreadable w; faults := faults w;
     streams := streams w; out_shown := out_shown w;
     out_pending := out_pending w; err_shown := err_shown w;
     heap := heap w; heap_room := heap_room w; junk := junk w; now := now w |}.

Definition set_disk (w : world) (d : gmap string string) : world :=
  {| vars := vars w; disk := d; denied := denied w; unreadable := unreadable w; faults := faults w;
     streams := streams w; out_shown := out_shown w;
     out_pending := out_pending w; err_shown := err_shown w;
     heap := heap w; heap_room := heap_room w; junk := junk w; now := now w |}.

Definition set_streams (w : world) (s : gmap nat stream) : world :=
  {| vars := vars w; disk := disk w; denied := denied w; unreadable := unreadable w; faults := faults w;
     streams := s; out_shown := out_shown w;
     out_pending := out_pending w; err_shown := err_shown w;
     heap := heap w; heap_room := heap_room w; junk := junk w; now := now w |}.

Definition set_out (w : world) (shown pending : string) : world :=
  {| vars := vars w; disk := disk w; denied := denied w; unreadable := unreadable w; faults := faults w;
     streams := streams w; out_shown := shown;
     out_pending := pending; err_shown := err_shown w;
     heap := heap w; heap_room := heap_room w; junk := junk w; now := now w |}.

Definition set_err (w : world) (shown : string) : world :=
  {| vars := vars w; disk := disk w; denied := denied w; unreadable := unreadable w; faults := faults w;
     streams := streams w; out_shown := out_shown w;
     out_pending := out_pending w; err_shown := shown;
     heap := heap w; heap_room := heap_room w; junk := junk w; now := now w |}.

Definition set_heap (w : world) (h : gmap nat (list ascii)) (room : nat)
  : world :=
  {| vars := vars w; disk := disk w; denied := denied w; unreadable := unreadable w; faults := faults w;
     streams := streams w; out_shown := out_shown w;
     out_pending := out_pending w; err_shown := err_shown w;
     heap := h; heap_room := room; junk := junk w; now := now w |}.

(** How a computation ends: it returns to its caller, the process is
    terminated by [exit], or the behaviour is undefined. *)
Inductive outcome (A : Type) : Type :=
  | Returns (a : A) (w : world)
  | Exits (status : Z) (w : world)
  | Undefined.

#[global] Arguments Returns {A} a w.
#[global] Arguments Exits {A} status w.
#[global] Arguments Undefined {A}.

Definition M (A : Type) : Type := world → outcome A.

#[global] Instance M_ret : MRet M := λ A a w, Returns a w.

(** Sequencing: what follows a call runs only if the call returns. *)
#[global] Instance M_bind : MBind M := λ A B k c w,
  match c w with
  | Returns a w' => k a w'
  | Exits status w' => Exits status w'
  | Undefined => Undefined
  end.

Definition get : M world := λ w, Returns w w.
Definition put (w : world) : M unit := λ _, Returns () w.
Definition undefined {A} : M A := λ _, Undefined.

Definition EXIT_FAILURE : Z := 1.

(** [exit(status)]: the process ends here.  The world kept is the one at the
    call; what the C library does on the way out is not modelled. *)
Definition exit {A} (status : Z) : M A := λ w, Exits status w.

(** The world a computation leaves behind, however it ends. *)
Definition final {A} (o : outcome A) : option world :=
  match o with
  | Returns _ w => Some w
  | Exits _ w => Some w
  | Undefined => None
  end.

Definition nl : string := String "010"%char EmptyString.

End World.

(* ===================================================================== *)
(** ** The C library: streams, files and the allocator *)
(* ===================================================================== *)

Section Stdio.

Definition add_pending (st : stream) (s : string) : stream :=
  {| s_path := s_path st; s_pending := s_pending st +:+ s;
     s_pos := s_pos st |}.

Definition clear_pending (st : stream) : stream :=
  {| s_path := s_path st; s_pending := ""; s_pos := s_pos st |}.

Definition seek (st : stream) (pos : nat) : stream :=
  {| s_path := s_path st; s_pending := s_pending st; s_pos := pos |}.

(** The content of a file; a missing file has none. *)
Definition file_data (w : world) (path : string) : string :=
  default "" (disk w !! path).

(** Output of already rendered text.  Writing through a stream that is not
    open is undefined. *)
Definition fprintf (f : FILE) (s : string) : M unit := λ w,
  match f with
  | stdout => Returns () (set_out w (out_shown w) (out_pending w +:+ s))
  | stderr => Returns () (set_err w (err_shown w +:+ s))
  | fstream id =>
      match streams w !! id with
      | Some st => Returns () (set_streams w (<[id := add_pending st s]> (streams w)))
      | None => Undefined
      end
  end.

(** [fflush]: the buffer goes to the console or to the end of the file. *)
Definition fflush (f : FILE) : M unit := λ w,
  match f with
  | stdout => Returns () (set_out w (out_shown w +:+ out_pending w) "")
  | stderr => Returns () w
  | fstream id =>
      match streams w !! id with
      | Some st =>
          let w1 := set_disk w (<[s_path st := file_data w (s_path st) +:+ s_pending st]> (disk w)) in
          Returns () (set_streams w1 (<[id := clear_pending st]> (streams w1)))
      | None => Undefined
      end
  end.

(** [fclose]: flush, then the stream is gone. *)
Definition fclose (f : FILE) : M unit :=
  fflush f;;
  match f with
  | fstream id => w ← get; put (set_streams w (delete id (streams w)))
  | _ => mret ()
  end.

Inductive fmode : Type :=
  | mode_a    (* "a" *)
  | mode_r    (* "r" *)
  | mode_rb.  (* "rb" *)

(** [fopen]: [NULL] when the system refuses.  Appending creates a missing
    file; reading needs the file to be there, and the system may refuse to
    open a file that is there. *)
Definition fopen (path : string) (mode : fmode) : M (option FILE) := λ w,
  let id := fresh (dom (streams w)) in
  let st := {| s_path := path; s_pending := ""; s_pos := O |} in
  match mode with
  | mode_a =>
      if bool_decide (path ∈ denied w) then Returns None w
      else
        let w1 := set_disk w (<[path := file_data w path]> (disk w)) in
        Returns (Some (fstream id)) (set_streams w1 (<[id := st]> (streams w1)))
  | mode_r | mode_rb =>
      match disk w !! path with
      | Some _ =>
          if bool_decide (path ∈ unreadable w) then Returns None w
          else Returns (Some (fstream id))
                 (set_streams w (<[id := st]> (streams w)))
      | None => Returns None w
      end
  end.

(** [fseek(f, 0, SEEK_END)] and [fseek(f, 0, SEEK_SET)]. *)
Definition fseek_end (f : FILE) : M unit := λ w,
  match f with
  | fstream id =>
      match streams w !! id with
      | Some st =>
          Returns () (set_streams w
            (<[id := seek st (String.length (file_data w (s_path st)))]> (streams w)))
      | None => Undefined
      end
  | _ => Returns () w
  end.

Definition fseek_set (f : FILE) : M unit := λ w,
  match f with
  | fstream id =>
      match streams w !! id with
      | Some st => Returns () (set_streams w (<[id := seek st O]> (streams w)))
      | None => Undefined
      end
  | _ => Returns () w
  end.

(** [ftell]: the position, as a [long]. *)
Definition ftell (f : FILE) : M Z := λ w,
  match f with
  | fstream id =>
      match streams w !! id with
      | Some st => Returns (Z.of_nat (s_pos st)) w
      | None => Undefined
      end
  | _ => Returns (-1) w
  end.

(** [size_t] is 64 bits wide. *)
Definition to_size_t (z : Z) : Z := z `mod` 2 ^ 64.

(** The bytes a read of [count] bytes at position [pos] obtains: those the
    file has from there on, cut at the fault of the device if it has one. *)
Definition readable (w : world) (st : stream) (count : Z) : list ascii :=
  let data := list_ascii_of_string (file_data w (s_path st)) in
  let good := match faults w !! s_path st with
              | Some k => take k data
              | None => data
              end in
  take (Z.to_nat count) (drop (s_pos st) good).

(** [fread(buf, 1, count, f)]: the bytes obtained overwrite the start of the
    block, the position advances, and their number is returned.  A null
    buffer, a freed block or a block too small for them is undefined. *)
Definition fread (buf : option nat) (count : Z) (f : FILE) : M Z := λ w,
  match f, buf with
  | fstream id, Some b =>
      match streams w !! id, heap w !! b with
      | Some st, Some old =>
          let got := readable w st count in
          if (length got <=? length old)%nat then
            let w1 := set_heap w (<[b := got ++ drop (length got) old]> (heap w))
                               (heap_room w) in
            Returns (Z.of_nat (length got))
              (set_streams w1 (<[id := seek st (s_pos st + length got)%nat]> (streams w1)))
          else Undefined
      | _, _ => Undefined
      end
  | _, _ => Undefined
  end.

(** [malloc]: a fresh block of [size] bytes, or [NULL] when the allocator has
    not that much left. *)
Definition malloc (size : Z) : M (option nat) := λ w,
  if (Z.to_nat size <=? heap_room w)%nat then
    let b := fresh (dom (heap w)) in
    Returns (Some b)
      (set_heap w (<[b := replicate (Z.to_nat size) (junk w)]> (heap w))
                  (heap_room w - Z.to_nat size)%nat)
  else Returns None w.

(** [free]: nothing for [NULL]; the block's bytes return to the allocator. *)
Definition free (p : option nat) : M unit := λ w,
  match p with
  | None => Returns () w
  | Some b =>
      match heap w !! b with
      | Some bytes =>
          Returns () (set_heap w (delete b (heap w)) (heap_room w + length bytes)%nat)
      | None => Undefined
      end
  end.

(** [p[i] = c] for a heap block. *)
Definition poke (p : option nat) (i : Z) (c : ascii) : M unit := λ w,
  match p with
  | Some b =>
      match heap w !! b with
      | Some bytes =>
          match store bytes i c with
          | Some bytes' => Returns () (set_heap w (<[b := bytes']> (heap w)) (heap_room w))
          | None => Undefined
          end
      | None => Undefined
      end
  | None => Undefined
  end.

End Stdio.

(* ===================================================================== *)
(** ** The functions of utils.h that act on the environment *)
(* ===================================================================== *)

Section Utils.

(** [void *safe_malloc(size_t size)] *)
Definition safe_malloc (size : Z) : M (option nat) :=
  ptr ← malloc size;
  if bool_decide (ptr = None) && (size >? 0) then
    fprintf stderr ("Error: Memory allocation failed" +:+ nl);;
    exit EXIT_FAILURE
  else mret ptr.

(** [char *get_timestamp(char *buffer, size_t size)].  [buffer] is [None] for
    [NULL]; the result is [NULL] or the buffer with the text it now holds.
    When the text and its terminator do not fit, [strftime] leaves the
    buffer indeterminate; the model stops there. *)
Definition get_timestamp (buffer : option unit) (size : Z) : M (option string) :=
  match buffer with
  | None => mret None
  | Some _ =>
      if size <? 20 then mret None
      else
        w ← get;
        if Z.of_nat (String.length (now w)) + 1 <=? size
        then mret (Some (now w))
        else undefined
  end.

Definition get_log_file : M (option FILE) := λ w, Returns (log_file (vars w)) w.

Definition set_log_file (f : option FILE) : M unit := λ w,
  Returns () (set_vars w {| log_file := f;
                            current_log_level := current_log_level (vars w) |}).

Definition get_current_log_level : M LogLevel :=
  λ w, Returns (current_log_level (vars w)) w.

Definition set_current_log_level (l : LogLevel) : M unit := λ w,
  Returns () (set_vars w {| log_file := log_file (vars w);
                            current_log_level := l |}).

(** [bool log_init(const char *filename, LogLevel level)] *)
Definition log_init (filename : option string) (level : LogLevel) : M bool :=
  set_current_log_level level;;
  match filename with
  | None => set_log_file (Some stdout);; mret true
  | Some path =>
      f ← fopen path mode_a;
      set_log_file f;;
      match f with
      | None =>
          fprintf stderr ("Error: Could not open log file " +:+ path +:+ nl);;
          mret false
      | Some _ => mret true
      end
  end.

(** [void log_close(void)] *)
Definition log_close : M unit :=
  lf ← get_log_file;
  match lf with
  | Some f =>
      if bool_decide (f ≠ stdout) then fclose f;; set_log_file None
      else mret ()
  | None => mret ()
  end.

(** [const char *level_str[] = {"DEBUG", "INFO", "WARNING", "ERROR", "FATAL"};] *)
Definition level_str : list string :=
  ["DEBUG"; "INFO"; "WARNING"; "ERROR"; "FATAL"]%string.

(** The three [fprintf]/[vfprintf] calls and the [fflush] of [log_message],
    all on the current value of [log_file]. *)
Definition emit (s : string) : M unit :=
  lf ← get_log_file;
  match lf with
  | Some f => fprintf f s
  | None => undefined
  end.

Definition flush_log : M unit :=
  lf ← get_log_file;
  match lf with
  | Some f => fflush f
  | None => undefined
  end.

(** [void log_message(LogLevel level, const char *format, ...)]; [msg] is
    the text [vfprintf] renders from the format and its arguments. *)
Definition log_message (level : LogLevel) (msg : string) : M unit :=
  lf ← get_log_file;
  (if bool_decide (lf = None) then set_log_file (Some stdout) else mret ());;
  cur ← get_current_log_level;
  if level_num level <? level_num cur then mret ()
  else
    ts ← get_timestamp (Some ()) 20;
    match ts, level_str !! Z.to_nat (level_num level) with
    | Some timestamp, Some name =>
        emit ("[" +:+ timestamp +:+ "] [" +:+ name +:+ "] ");;
        emit msg;;
        emit nl;;
        flush_log;;
        if bool_decide (level = LOG_FATAL) then exit EXIT_FAILURE
        else mret ()
    | _, _ => undefined
    end.

(** [bool file_exists(const char *filename)] *)
Definition file_exists (filename : option string) : M bool :=
  match filename with
  | None => mret false
  | Some path =>
      file ← fopen path mode_r;
      match file with
      | None => mret false
      | Some f => fclose f;; mret true
      end
  end.

(** [long file_size(const char *filename)] *)
Definition file_size (filename : option string) : M Z :=
  match filename with
  | None => mret (-1)
  | Some path =>
      file ← fopen path mode_rb;
      match file with
      | None => mret (-1)
      | Some f =>
          fseek_end f;;
          size ← ftell f;
          fclose f;;
          mret size
      end
  end.

(** [char *file_read_all(const char *filename)]; the result is the block
    returned, [None] for [NULL]. *)
Definition file_read_all (filename : option string) : M (option nat) :=
  match filename with
  | None => mret None
  | Some path =>
      file ← fopen path mode_rb;
      match file with
      | None => mret None
      | Some f =>
          fseek_end f;;
          size ← ftell f;
          fseek_set f;;
          content ← safe_malloc (to_size_t (size + 1));
          read_size ← fread content (to_size_t size) f;
          fclose f;;
          if negb (to_size_t read_size =? to_size_t size) then
            free content;;
            mret None
          else
            poke content size zero;;
            mret content
      end
  end.

End Utils.

(* ===================================================================== *)
(** ** Vocabulary of the properties *)
(* ===================================================================== *)

Section Vocabulary.

(** Trimming as the documentation words it: leading run of trimmed
    characters removed, then the trailing one. *)
Fixpoint drop_spaces (s : list ascii) : list ascii :=
  match s with
  | [] => []
  | c :: s' => if is_trim_space c then drop_spaces s' else s
  end.

Definition trimmed (s : list ascii) : list ascii :=
  reverse (drop_spaces (reverse (drop_spaces s))).

Definition all_spaces (s : list ascii) : Prop :=
  Forall (λ c, is_trim_space c = true) s.

Definition not_space (o : option ascii) : Prop :=
  ∀ c, o = Some c → is_trim_space c = false.

(** The destination of a log line: [log_file], or standard output when the
    variable is [NULL]. *)
Definition destination (w : world) : FILE :=
  default stdout (log_file (vars w)).

Definition threshold (w : world) : LogLevel := current_log_level (vars w).

(** The first two statements of [log_message]: the destination falls back
    to standard output, whatever the level. *)
Definition after_fallback (w : world) : world :=
  set_vars w {| log_file := Some (destination w);
                current_log_level := threshold w |}.

(** Severities in the order of their enumerators. *)
Definition level_le (a b : LogLevel) : Prop := level_num a ≤ level_num b.
Definition level_lt (a b : LogLevel) : Prop := level_num a < level_num b.

(** All that was ever written through a stream, whether it has left the
    buffer or not; [None] for a stream that is not open. *)
Definition written (w : world) (f : FILE) : option string :=
  match f with
  | stdout => Some (out_shown w +:+ out_pending w)
  | stderr => Some (err_shown w)
  | fstream id =>
      st ← streams w !! id; Some (file_data w (s_path st) +:+ s_pending st)
  end.

(** What a stream still holds in its buffer. *)
Definition buffered (w : world) (f : FILE) : option string :=
  match f with
  | stdout => Some (out_pending w)
  | stderr => Some ""
  | fstream id => st ← streams w !! id; Some (s_pending st)
  end.

(** The rendering of the clock fits the 20 bytes of [timestamp]. *)
Definition clock_fits (w : world) : Prop :=
  (String.length (now w) < 20)%nat.

Definition level_name (l : LogLevel) : string :=
  match l with
  | LOG_DEBUG => "DEBUG"
  | LOG_INFO => "INFO"
  | LOG_WARNING => "WARNING"
  | LOG_ERROR => "ERROR"
  | LOG_FATAL => "FATAL"
  end.

(** The line of the log file format: [[timestamp] [LEVEL] message\n]. *)
Definition log_line (w : world) (l : LogLevel) (msg : string) : string :=
  ("[" +:+ now w +:+ "] [" +:+ level_name l +:+ "] ") +:+ msg +:+ nl.

(** The number of bytes [fread] obtains from a file when it is asked, from
    the start, for as many as the file has. *)
Definition read_count (w : world) (path : string) : nat :=
  length (readable w {| s_path := path; s_pending := ""; s_pos := O |}
            (Z.of_nat (String.length (file_data w path)))).

(** A process that has just started: nothing on disk, no stream open, the
    logger's variables at their initialisers. *)
Definition fresh_world : world :=
  {| vars := {| log_file := None; current_log_level := LOG_INFO |};
     disk := ∅; denied := ∅; unreadable := ∅; faults := ∅; streams := ∅;
     out_shown := ""; out_pending := ""; err_shown := "";
     heap := ∅; heap_room := 4096; junk := "205"%char;
     now := "2025-03-01 12:00:00" |}.

(** A world where the log directory cannot be written to. *)
Definition locked_world : world :=
  {| vars := {| log_file := None; current_log_level := LOG_INFO |};
     disk := ∅; denied := {[ "/var/log/app.log" ]}; unreadable := ∅; faults := ∅; streams := ∅;
     out_shown := ""; out_pending := ""; err_shown := "";
     heap := ∅; heap_room := 4096; junk := "205"%char;
     now := "2025-03-01 12:00:00" |}.

(** A world with an empty file, and a file whose device fails after three
    bytes. *)
Definition files_world : world :=
  {| vars := {| log_file := None; current_log_level := LOG_INFO |};
     disk := <["empty.txt" := ""]> (<["data.bin" := "abcdef"]> ∅);
     denied := ∅; unreadable := ∅; faults := {[ "data.bin" := 3%nat ]}; streams := ∅;
     out_shown := ""; out_pending := ""; err_shown := "";
     heap := ∅; heap_room := 4096; junk := "205"%char;
     now := "2025-03-01 12:00:00" |}.

(** The array [" \t hi \n"]. *)
Definition padded_hi : list ascii :=
  [" "; "009"; " "; "h"; "i"; " "; "010"; zero]%char.

End Vocabulary.

(* ===================================================================== *)
(** ** The rest of the header: allocation, duplication, the console *)
(* ===================================================================== *)

Section MoreUtils.

(** [calloc]: [NULL] when the product does not fit [size_t] or the
    allocator has not that much left; otherwise a fresh block of zero
    bytes. *)
Definition calloc (nmemb size : Z) : M (option nat) := λ w,
  if 2 ^ 64 <=? nmemb * size then Returns None w
  else if (Z.to_nat (nmemb * size) <=? heap_room w)%nat then
    let b := fresh (dom (heap w)) in
    Returns (Some b)
      (set_heap w (<[b := replicate (Z.to_nat (nmemb * size)) zero]> (heap w))
                  (heap_room w - Z.to_nat (nmemb * size))%nat)
  else Returns None w.

(** [realloc]: [malloc] for a null pointer; for size 0 the block is freed
    and [NULL] returned (the behaviour of the GNU library); otherwise the
    block is replaced by one of the new size that starts with the old
    bytes, or, when the allocator cannot, [NULL] is returned and the old
    block stays.  The new block may or may not have the old address. *)
Definition realloc (ptr : option nat) (size : Z) : M (option nat) := λ w,
  match ptr with
  | None => malloc size w
  | Some b =>
      match heap w !! b with
      | None => Undefined
      | Some old =>
          if size =? 0 then
            Returns None
              (set_heap w (delete b (heap w)) (heap_room w + length old)%nat)
          else if (Z.to_nat size <=? heap_room w + length old)%nat then
            let h := delete b (heap w) in
            let b' := fresh (dom h) in
            Returns (Some b')
              (set_heap w
                 (<[b' := take (Z.to_nat size) old
                          ++ replicate (Z.to_nat size - length old) (junk w)]> h)
                 (heap_room w + length old - Z.to_nat size)%nat)
          else Returns None w
      end
  end.

(** [void *safe_calloc(size_t nmemb, size_t size)] *)
Definition safe_calloc (nmemb size : Z) : M (option nat) :=
  ptr ← calloc nmemb size;
  if bool_decide (ptr = None) && (nmemb >? 0) && (size >? 0) then
    fprintf stderr ("Error: Memory allocation failed" +:+ nl);;
    exit EXIT_FAILURE
  else mret ptr.

(** [void *safe_realloc(void *ptr, size_t size)] *)
Definition safe_realloc (ptr : option nat) (size : Z) : M (option nat) :=
  new_ptr ← realloc ptr size;
  if bool_decide (new_ptr = None) && (size >? 0) then
    fprintf stderr ("Error: Memory reallocation failed" +:+ nl);;
    free ptr;;
    exit EXIT_FAILURE
  else mret new_ptr.

(** [void safe_free(void **ptr)].  The argument is [None] for a null [ptr]
    and otherwise the value of the variable [ptr] points to; the result is
    the value of that variable after the call. *)
Definition safe_free (ptr : option (option nat)) : M (option (option nat)) :=
  match ptr with
  | Some (Some b) => free (Some b);; mret (Some None)
  | _ => mret ptr
  end.

(** [strcpy(dst, src)]: the string at [src] and its terminator overwrite the
    start of the block; a block too small for them is undefined. *)
Definition strcpy (dst : option nat) (src : list ascii) : M (option nat) := λ w,
  match dst, strlen src with
  | Some b, Some n =>
      match heap w !! b with
      | Some old =>
          if (S n <=? length old)%nat then
            Returns (Some b)
              (set_heap w (<[b := take (S n) src ++ drop (S n) old]> (heap w))
                          (heap_room w))
          else Undefined
      | None => Undefined
      end
  | _, _ => Undefined
  end.

(** [char *str_duplicate(const char *str)] *)
Definition str_duplicate (str : option (list ascii)) : M (option nat) :=
  match str with
  | None => mret None
  | Some s =>
      match strlen s with
      | None => undefined
      | Some n =>
          let len := Z.of_nat n + 1 in
          new_str ← safe_malloc len;
          strcpy new_str s
      end
  end.

(** [EOF] and [getchar] on the input that is left: at the end of the input
    [getchar] answers [EOF], again and again. *)
Definition EOF : Z := -1.

Definition getchar (stdin : list ascii) : Z * list ascii :=
  match stdin with
  | [] => (EOF, [])
  | c :: rest => (code c, rest)
  end.

(** The loop of [pause_screen], [while (getchar() != '\n') ;], with the
    input left when it ends; [None] when [fuel] rounds did not end it. *)
Fixpoint await_newline (fuel : nat) (stdin : list ascii)
  : option (list ascii) :=
  match fuel with
  | O => None
  | S fuel' =>
      let '(c, rest) := getchar stdin in
      if negb (c =? code "010"%char) then await_newline fuel' rest
      else Some rest
  end.

(** [void pause_screen(void)] on the standard input [stdin]. *)
Definition pause_screen (fuel : nat) (stdin : list ascii)
  : M (option (list ascii)) :=
  fprintf stdout "Press Enter to continue...";;
  mret (await_newline fuel stdin).

(** A caller that logs a list of messages one after the other. *)
Fixpoint log_each (entries : list (LogLevel * string)) : M unit :=
  match entries with
  | [] => mret ()
  | (level, msg) :: rest => log_message level msg;; log_each rest
  end.

(** The lines such a caller leaves under threshold [T]. *)
Fixpoint lines_of (w : world) (T : LogLevel) (entries : list (LogLevel * string))
  : string :=
  match entries with
  | [] => ""
  | (level, msg) :: rest =>
      (if level_num level <? level_num T then "" else log_line w level msg)
      +:+ lines_of w T rest
  end.

(** The world after [log_init] has opened [path]: the file is there, a new
    stream is bound to it and [log_file] points to that stream. *)
Definition log_opened (w : world) (path : string) (level : LogLevel) : world :=
  let id := fresh (dom (streams w)) in
  set_vars
    (set_streams
       (set_disk w (<[path := file_data w path]> (disk w)))
       (<[id := {| s_path := path; s_pending := ""; s_pos := O |}]> (streams w)))
    {| log_file := Some (fstream id); current_log_level := level |}.

(** The world after [text] went through the file stream [id] and the stream
    was flushed. *)
Definition log_appended (w : world) (id : nat) (st : stream) (text : string)
  : world :=
  set_streams
    (set_disk w (<[s_path st := file_data w (s_path st) +:+ s_pending st +:+ text]>
                   (disk w)))
    (<[id := clear_pending st]> (streams w)).

(** The world after [log_close] has closed the file stream [id]. *)
Definition log_closed (w : world) (id : nat) (st : stream) : world :=
  set_vars
    (set_streams
       (set_disk w (<[s_path st := file_data w (s_path st) +:+ s_pending st]>
                      (disk w)))
       (delete id (streams w)))
    {| log_file := None; current_log_level := current_log_level (vars w) |}.

(** A world with two blocks on the heap. *)
Definition heap_world : world :=
  {| vars := {| log_file := None; current_log_level := LOG_INFO |};
     disk := ∅; denied := ∅; unreadable := ∅; faults := ∅; streams := ∅;
     out_shown := ""; out_pending := ""; err_shown := "";
     heap := <[O := lit "abc"]> (<[1%nat := lit "xy"]> ∅);
     heap_room := 8; junk := "205"%char;
     now := "2025-03-01 12:00:00" |}.

(** The largest [long]. *)
Definition LONG_MAX : Z := 2 ^ 63 - 1.

(** A world with a log file of earlier runs and a text file. *)
Definition disk_world : world :=
  {| vars := {| log_file := None; current_log_level := LOG_INFO |};
     disk := <["app.log" := "old "]> (<["note.txt" := "hello"]> ∅);
     denied := ∅; unreadable := ∅; faults := ∅; streams := ∅;
     out_shown := ""; out_pending := ""; err_shown := "";
     heap := ∅; heap_room := 4096; junk := "205"%char;
     now := "2025-03-01 12:00:00" |}.

(** The same, with one more file, which the system lets nobody read. *)
Definition guarded_world : world :=
  {| vars := {| log_file := None; current_log_level := LOG_INFO |};
     disk := <["app.log" := "old "]>
               (<["note.txt" := "hello"]> (<["secret.txt" := "key"]> ∅));
     denied := ∅; unreadable := {[ "secret.txt" ]}; faults := ∅; streams := ∅;
     out_shown := ""; out_pending := ""; err_shown := "";
     heap := ∅; heap_room := 4096; junk := "205"%char;
     now := "2025-03-01 12:00:00" |}.

End MoreUtils.

Section CStringFacts.

Lemma is_nul_false c : is_nul c = false ↔ c ≠ zero.
Proof. unfold is_nul. apply Ascii.eqb_neq. Qed.

Lemma strlen_cstring v s : cstring v s → strlen v = Some (length s).
Proof.
  intros [Hs [rest ->]]. induction Hs as [|c s Hc Hs IH]; simpl.
  - reflexivity.
  - apply is_nul_false in Hc. rewrite Hc, IH. reflexivity.
Qed.

Lemma code_inj c1 c2 : code c1 = code c2 → c1 = c2.
Proof.
  unfold code. intros H. apply N2Z.inj in H.
  rewrite <- (ascii_N_embedding c1), <- (ascii_N_embedding c2). by rewrite H.
Qed.

Lemma code_diff c1 c2 : c1 ≠ c2 → code c1 - code c2 ≠ 0.
Proof. intros Hne H. apply Hne, code_inj. lia. Qed.

Lemma cstring_nil_inv v : cstring v [] → ∃ rest, v = zero :: rest.
Proof. intros [_ [rest ->]]. by exists rest. Qed.

Lemma cstring_cons_inv v c s :
  cstring v (c :: s) → c ≠ zero ∧ ∃ v', v = c :: v' ∧ cstring v' s.
Proof.
  intros [Hs [rest ->]]. inversion Hs; subst. split; [done|].
  exists (s ++ zero :: rest). split; [done|]. split; [done|]. by exists rest.
Qed.

(** [strncmp] over the length of the second string decides the prefix
    relation. *)
Lemma strncmp_prefix p : ∀ vs vp s,
  cstring vs s → cstring vp p → (length p ≤ length s)%nat →
  ∃ r, strncmp vs vp (length p) = Some r ∧ (r = 0 ↔ p `prefix_of` s).
Proof.
  induction p as [|c2 p IH]; intros vs vp s Hs Hp Hlen.
  - exists 0. split; [done|]. split; [intros _; apply prefix_nil | done].
  - destruct s as [|c1 s]; [simpl in Hlen; lia|].
    apply cstring_cons_inv in Hs as [Hc1 [vs' [-> Hs']]].
    apply cstring_cons_inv in Hp as [Hc2 [vp' [-> Hp']]].
    cbn [strncmp length]. destruct (Ascii.eqb c1 c2) eqn:E; cbn [negb].
    + apply Ascii.eqb_eq in E as ->.
      apply is_nul_false in Hc2. rewrite Hc2.
      destruct (IH vs' vp' s Hs' Hp') as [r [Hr Hiff]]; [simpl in Hlen; lia|].
      exists r. split; [done|]. rewrite Hiff. split.
      * by apply prefix_cons.
      * by intros H%prefix_cons_inv_2.
    + apply Ascii.eqb_neq in E. eexists. split; [done|]. split.
      * intros H. by apply code_diff in H.
      * intros H%prefix_cons_inv_1. done.
Qed.

(** [strcmp] decides equality of the two strings. *)
Lemma strcmp_eq a : ∀ va vb b,
  cstring va a → cstring vb b →
  ∃ r, strcmp va vb = Some r ∧ (r = 0 ↔ a = b).
Proof.
  induction a as [|c1 a IH]; intros va vb b Ha Hb.
  - apply cstring_nil_inv in Ha as [ra ->]. destruct b as [|c2 b].
    + apply cstring_nil_inv in Hb as [rb ->]. by exists 0.
    + apply cstring_cons_inv in Hb as [Hc2 [vb' [-> _]]]. cbn [strcmp].
      assert (E : Ascii.eqb zero c2 = false) by (apply Ascii.eqb_neq; congruence).
      rewrite E. cbn [negb]. eexists. split; [done|]. split; [|done].
      intros H. apply code_diff in H; [done|]. congruence.
  - apply cstring_cons_inv in Ha as [Hc1 [va' [-> Ha']]]. destruct b as [|c2 b].
    + apply cstring_nil_inv in Hb as [rb ->]. cbn [strcmp].
      assert (E : Ascii.eqb c1 zero = false) by (by apply Ascii.eqb_neq).
      rewrite E. cbn [negb]. eexists. split; [done|]. split; [|done].
      intros H. by apply code_diff in H.
    + apply cstring_cons_inv in Hb as [Hc2 [vb' [-> Hb']]]. cbn [strcmp].
      destruct (Ascii.eqb c1 c2) eqn:E; cbn [negb].
      * apply Ascii.eqb_eq in E as ->.
        apply is_nul_false in Hc2. rewrite Hc2.
        destruct (IH va' vb' b Ha' Hb') as [r [Hr Hiff]].
        exists r. split; [done|]. rewrite Hiff. split; [by intros ->|].
        by intros [= ->].
      * apply Ascii.eqb_neq in E. eexists. split; [done|]. split.
        -- intros H. by apply code_diff in H.
        -- by intros [= -> _].
Qed.

(** Moving a pointer forward inside a string gives the string's tail. *)
Lemma cstring_drop v s k :
  (k ≤ length s)%nat → cstring v s → cstring (drop k v) (drop k s).
Proof.
  intros Hk [Hs [rest ->]]. split.
  - unfold no_nul in *. rewrite Forall_forall in *.
    intros c Hc. apply Hs. eapply (subseteq_drop k s), Hc.
  - exists rest. rewrite drop_app_le by done. done.
Qed.

Lemma suffix_drop_length (x s : list ascii) :
  (length x ≤ length s)%nat →
  drop (length s - length x) s = x ↔ x `suffix_of` s.
Proof.
  intros Hlen. split.
  - intros <-. apply suffix_drop.
  - intros [k ->]. rewrite length_app.
    replace (length k + length x - length x)%nat with (length k) by lia.
    by rewrite drop_app_length.
Qed.

Lemma str_starts_with_spec vs vp s p :
  cstring vs s → cstring vp p →
  ∃ b, str_starts_with (Some vs) (Some vp) = Some b ∧
       (b = true ↔ p `prefix_of` s).
Proof.
  intros Hs Hp. unfold str_starts_with.
  rewrite (strlen_cstring _ _ Hs), (strlen_cstring _ _ Hp). simpl.
  destruct (length s <? length p)%nat eqn:E.
  - apply Nat.ltb_lt in E. exists false. split; [done|]. split; [done|].
    intros H%prefix_length. lia.
  - apply Nat.ltb_ge in E.
    destruct (strncmp_prefix p vs vp s Hs Hp E) as [r [-> Hiff]]. simpl.
    eexists. split; [done|]. by rewrite Z.eqb_eq.
Qed.

Lemma str_ends_with_spec vs vx s x :
  cstring vs s → cstring vx x →
  ∃ b, str_ends_with (Some vs) (Some vx) = Some b ∧
       (b = true ↔ x `suffix_of` s).
Proof.
  intros Hs Hx. unfold str_ends_with.
  rewrite (strlen_cstring _ _ Hs), (strlen_cstring _ _ Hx). simpl.
  destruct (length s <? length x)%nat eqn:E.
  - apply Nat.ltb_lt in E. exists false. split; [done|]. split; [done|].
    intros H%suffix_length. lia.
  - apply Nat.ltb_ge in E.
    assert (Hd : cstring (drop (length s - length x) vs)
                         (drop (length s - length x) s))
      by (apply cstring_drop; [lia | done]).
    destruct (strcmp_eq _ _ vx x Hd Hx) as [r [-> Hiff]]. simpl.
    eexists. split; [done|].
    by rewrite Z.eqb_eq, Hiff, suffix_drop_length.
Qed.

End CStringFacts.

(* ===================================================================== *)
(** ** Facts about [str_trim] *)
(* ===================================================================== *)

Section TrimFacts.

(** Two spellings of one list, up to the nesting of [++] and [::]. *)
Ltac same_list :=
  cbn [app]; repeat (rewrite <- app_assoc; cbn [app]); reflexivity.

Lemma load_middle pre c tl :
  load (pre ++ c :: tl) (Z.of_nat (length pre)) = Some c.
Proof.
  unfold load. destruct (Z.ltb_spec (Z.of_nat (length pre)) 0); [lia|].
  rewrite Nat2Z.id. apply list_lookup_middle. done.
Qed.

Lemma store_middle pre c c' tl :
  store (pre ++ c :: tl) (Z.of_nat (length pre)) c' = Some (pre ++ c' :: tl).
Proof.
  unfold store. rewrite length_app. cbn [length].
  destruct (Z.leb_spec 0 (Z.of_nat (length pre))); [|lia].
  destruct (Z.ltb_spec (Z.of_nat (length pre))
              (Z.of_nat (length pre + S (length tl)))); [|lia].
  cbn [andb]. rewrite Nat2Z.id.
  replace (length pre) with (length pre + 0)%nat at 1 by lia.
  by rewrite insert_app_r.
Qed.

Lemma view_middle pre v :
  view (pre ++ v) (Z.of_nat (length pre)) = Some v.
Proof.
  unfold view. rewrite length_app.
  destruct (Z.leb_spec 0 (Z.of_nat (length pre))); [|lia].
  destruct (Z.leb_spec (Z.of_nat (length pre))
              (Z.of_nat (length pre + length v))); [|lia].
  cbn [andb]. by rewrite Nat2Z.id, drop_app_length.
Qed.

Lemma strlen_at_middle pre s rest :
  no_nul s →
  strlen_at (pre ++ s ++ zero :: rest) (Z.of_nat (length pre))
  = Some (length s).
Proof.
  intros Hs. unfold strlen_at. rewrite view_middle. cbn.
  apply strlen_cstring. split; [done|]. by exists rest.
Qed.

Lemma string_at_middle pre s rest :
  no_nul s →
  string_at (pre ++ s ++ zero :: rest) (Z.of_nat (length pre)) = Some s.
Proof.
  intros Hs. unfold string_at. rewrite view_middle. cbn.
  rewrite (strlen_cstring _ s) by (split; [done | by exists rest]). cbn.
  by rewrite take_app_length.
Qed.

(** The first loop stops right after the leading run. *)
Lemma skip_leading_run lead : ∀ pre c tl fuel,
  all_spaces lead → no_nul lead →
  is_nul c = true ∨ is_trim_space c = false →
  (length lead < fuel)%nat →
  skip_leading fuel (pre ++ lead ++ c :: tl) (Z.of_nat (length pre))
  = Some (Z.of_nat (length pre) + Z.of_nat (length lead)).
Proof.
  induction lead as [|a lead IH]; intros pre c tl fuel Hsp Hnn Hc Hfuel.
  - destruct fuel as [|fuel]; [cbn in Hfuel; lia|].
    cbn [skip_leading app length]. rewrite load_middle. cbn.
    destruct Hc as [-> | ->]; cbn.
    + f_equal. lia.
    + rewrite andb_false_r. f_equal. lia.
  - destruct fuel as [|fuel]; [cbn in Hfuel; lia|].
    inversion Hsp as [|? ? Ha Hsp']; subst.
    inversion Hnn as [|? ? Hz Hnn']; subst.
    cbn [skip_leading]. rewrite <- app_comm_cons, load_middle. cbn.
    apply is_nul_false in Hz. rewrite Hz, Ha. cbn.
    replace (pre ++ a :: lead ++ c :: tl)
      with ((pre ++ [a]) ++ lead ++ c :: tl) by same_list.
    replace (Z.of_nat (length pre) + 1)
      with (Z.of_nat (length (pre ++ [a])))
      by (rewrite length_app; cbn; lia).
    rewrite IH; [|done|done|done|cbn in Hfuel; lia].
    f_equal. rewrite length_app. cbn [length]. lia.
Qed.

(** The second loop overwrites the trailing run with terminators, provided
    the string does not consist of that run alone. *)
Lemma cut_trailing_run trail : ∀ pre core rest fuel,
  all_spaces trail →
  (core = [] → trail = []) →
  not_space (last core) →
  (length trail < fuel)%nat →
  cut_trailing fuel (pre ++ core ++ trail ++ rest) (Z.of_nat (length pre))
    (Z.of_nat (length pre) + Z.of_nat (length (core ++ trail)) - 1)
  = Some (pre ++ core ++ replicate (length trail) zero ++ rest).
Proof.
  induction trail as [|c trail IH] using rev_ind;
    intros pre core rest fuel Hsp Hcore Hlast Hfuel.
  - destruct fuel as [|fuel]; [cbn in Hfuel; lia|].
    cbn [cut_trailing replicate length app]. rewrite app_nil_r.
    destruct (Z.gtb_spec (Z.of_nat (length pre) + Z.of_nat (length core) - 1)
                (Z.of_nat (length pre))) as [Hgt|Hle]; [|done].
    destruct (last core) as [x|] eqn:Hx.
    + apply last_Some in Hx as [core' ->].
      rewrite length_app. cbn [length].
      replace (Z.of_nat (length pre) + Z.of_nat (length core' + 1) - 1)
        with (Z.of_nat (length (pre ++ core')))
        by (rewrite length_app; lia).
      replace (pre ++ (core' ++ [x]) ++ rest)
        with ((pre ++ core') ++ x :: rest)
        by same_list.
      rewrite load_middle. cbn. by rewrite (Hlast x).
    + apply last_None in Hx as ->. cbn in Hgt. lia.
  - destruct fuel as [|fuel]; [rewrite length_app in Hfuel; cbn in Hfuel; lia|].
    apply Forall_app in Hsp as [Hsp Hc]. inversion Hc as [|? ? Hc' _]; subst.
    destruct core as [|x core];
      [specialize (Hcore eq_refl); by destruct trail|].
    cbn [cut_trailing].
    rewrite !length_app. cbn [length].
    destruct (Z.gtb_spec
                (Z.of_nat (length pre)
                 + Z.of_nat (S (length core) + (length trail + 1)) - 1)
                (Z.of_nat (length pre))) as [Hgt|Hle]; [|lia].
    replace (pre ++ (x :: core) ++ (trail ++ [c]) ++ rest)
      with ((pre ++ (x :: core) ++ trail) ++ c :: rest)
      by same_list.
    replace (Z.of_nat (length pre)
             + Z.of_nat (S (length core) + (length trail + 1)) - 1)
      with (Z.of_nat (length (pre ++ (x :: core) ++ trail)))
      by (rewrite !length_app; cbn [length]; lia).
    rewrite load_middle. cbn. rewrite Hc', store_middle. cbn.
    replace (Z.of_nat (length (pre ++ x :: core ++ trail)) - 1)
      with (Z.of_nat (length pre)
            + Z.of_nat (length ((x :: core) ++ trail)) - 1)
      by (rewrite !length_app; cbn [length]; rewrite length_app; lia).
    replace ((pre ++ x :: core ++ trail) ++ zero :: rest)
      with (pre ++ (x :: core) ++ trail ++ zero :: rest)
      by same_list.
    rewrite IH; [|done|done|done|rewrite length_app in Hfuel; cbn in Hfuel; lia].
    do 3 f_equal.
    replace (length trail + 1)%nat with (S (length trail)) by lia.
    rewrite replicate_S_end, <- app_assoc. done.
Qed.

Lemma memmove_run pre lead body rest :
  memmove (pre ++ lead ++ body ++ rest) (Z.of_nat (length pre))
    (Z.of_nat (length pre) + Z.of_nat (length lead)) (length body)
  = Some (pre ++ body ++ drop (length body) (lead ++ body ++ rest)).
Proof.
  unfold memmove. rewrite !length_app.
  destruct (Z.leb_spec 0 (Z.of_nat (length pre))); [|lia].
  destruct (Z.leb_spec 0 (Z.of_nat (length pre) + Z.of_nat (length lead)));
    [|lia].
  destruct (Z.leb_spec (Z.of_nat (length pre) + Z.of_nat (length body))
              (Z.of_nat (length pre + (length lead + (length body + length rest)))));
    [|lia].
  destruct (Z.leb_spec
              (Z.of_nat (length pre) + Z.of_nat (length lead)
               + Z.of_nat (length body))
              (Z.of_nat (length pre + (length lead + (length body + length rest)))));
    [|lia].
  cbn [andb]. f_equal.
  rewrite Nat2Z.id, take_app_length. f_equal.
  replace (Z.to_nat (Z.of_nat (length pre) + Z.of_nat (length lead)))
    with (length (pre ++ lead)) by (rewrite length_app; lia).
  replace (pre ++ lead ++ body ++ rest) with ((pre ++ lead) ++ body ++ rest)
    by same_list.
  rewrite drop_app_length, take_app_length. f_equal.
  replace ((pre ++ lead) ++ body ++ rest) with (pre ++ lead ++ body ++ rest)
    by same_list.
  by rewrite drop_app_add.
Qed.

Lemma drop_spaces_split s :
  ∃ lead, s = lead ++ drop_spaces s ∧ all_spaces lead ∧
          not_space (head (drop_spaces s)).
Proof.
  induction s as [|c s [lead (Hs & Hlead & Hhead)]].
  - exists []. repeat split; [constructor | by intros c].
  - cbn [drop_spaces]. destruct (is_trim_space c) eqn:E.
    + exists (c :: lead). repeat split; [by cbn; f_equal | by constructor | done].
    + exists []. repeat split; [constructor|]. intros c' [= <-]. done.
Qed.

(** [trimmed s] is [s] without a leading and a trailing run of trimmed
    characters, and it neither starts nor ends with one. *)
Lemma trimmed_split s :
  ∃ lead trail,
    s = lead ++ trimmed s ++ trail ∧
    drop_spaces s = trimmed s ++ trail ∧
    all_spaces lead ∧ all_spaces trail ∧
    not_space (head (trimmed s)) ∧ not_space (last (trimmed s)).
Proof.
  destruct (drop_spaces_split s) as [lead (Hs & Hlead & Hhead)].
  destruct (drop_spaces_split (reverse (drop_spaces s)))
    as [l2 (Hr & Hl2 & Hh2)].
  assert (Hmid : drop_spaces s = trimmed s ++ reverse l2).
  { unfold trimmed. rewrite <- reverse_app, <- Hr. by rewrite reverse_involutive. }
  exists lead, (reverse l2). repeat split.
  - by rewrite <- Hmid.
  - done.
  - done.
  - unfold all_spaces. by apply Forall_reverse.
  - rewrite Hmid in Hhead. intros c Hc. apply Hhead.
    destruct (trimmed s); [done|]. done.
  - unfold trimmed. by rewrite last_reverse.
Qed.

Lemma no_nul_app a b : no_nul (a ++ b) ↔ no_nul a ∧ no_nul b.
Proof. apply Forall_app. Qed.

(** The object after [str_trim]: the bytes before the pointer are as they
    were, the trimmed string and its terminator follow, and the object has
    kept its size. *)
Lemma str_trim_run pre s rest :
  no_nul s →
  ∃ rest',
    str_trim (pre ++ s ++ zero :: rest) (Some (Z.of_nat (length pre)))
    = Some (pre ++ trimmed s ++ zero :: rest', Some (Z.of_nat (length pre)))
    ∧ length (trimmed s ++ zero :: rest') = length (s ++ zero :: rest).
Proof.
  intros Hs.
  destruct (trimmed_split s)
    as (lead & trail & Hsplit & Hmid & Hlead & Htrail & Hhead & Hlast).
  remember (trimmed s) as core eqn:Ecore. clear Ecore.
  assert (Hnn : no_nul lead ∧ no_nul core ∧ no_nul trail).
  { rewrite Hsplit in Hs. apply no_nul_app in Hs as [? Hs].
    apply no_nul_app in Hs as [? ?]. done. }
  destruct Hnn as (Hnl & Hnc & Hnt).
  assert (Hcore : core = [] → trail = []).
  { intros E. rewrite E in Hmid. cbn in Hmid.
    destruct (drop_spaces_split s) as [l' (_ & _ & Hh)].
    rewrite Hmid in Hh. destruct trail as [|c trail]; [done|].
    inversion Htrail; subst. rewrite (Hh c) in *; done. }
  assert (Hstop : ∀ c tl, core ++ trail ++ zero :: rest = c :: tl →
                          is_nul c = true ∨ is_trim_space c = false).
  { intros c tl E. destruct core as [|x core'].
    - rewrite (Hcore eq_refl) in E. cbn in E. injection E as <- _. by left.
    - cbn in E. injection E as <- _. right. by apply Hhead. }
  unfold str_trim.
  assert (Hlen : length (pre ++ s ++ zero :: rest)
                 = (length pre + (length lead + (length core + length trail)
                                  + S (length rest)))%nat).
  { rewrite Hsplit. rewrite ?length_app. cbn [length]. lia. }
  (* first loop *)
  assert (Hskip :
    skip_leading (S (length (pre ++ s ++ zero :: rest)))
      (pre ++ s ++ zero :: rest) (Z.of_nat (length pre))
    = Some (Z.of_nat (length pre) + Z.of_nat (length lead))).
  { destruct (core ++ trail ++ zero :: rest) as [|c tl] eqn:E;
      [by destruct core, trail|].
    replace (pre ++ s ++ zero :: rest) with (pre ++ lead ++ c :: tl)
      by (rewrite <- E, Hsplit; same_list).
    apply skip_leading_run; [done|done|by eapply Hstop|].
    rewrite !length_app. lia. }
  rewrite Hskip. cbn [mbind option_bind].
  (* the move *)
  assert (Hmove : ∃ rest1,
    (if Z.of_nat (length pre) + Z.of_nat (length lead) =? Z.of_nat (length pre)
     then Some (pre ++ s ++ zero :: rest)
     else n ← strlen_at (pre ++ s ++ zero :: rest)
                (Z.of_nat (length pre) + Z.of_nat (length lead));
          memmove (pre ++ s ++ zero :: rest) (Z.of_nat (length pre))
            (Z.of_nat (length pre) + Z.of_nat (length lead)) (n + 1))
    = Some (pre ++ (core ++ trail) ++ zero :: rest1)
    ∧ length rest1 = (length lead + length rest)%nat).
  { destruct (Z.eqb_spec (Z.of_nat (length pre) + Z.of_nat (length lead))
                (Z.of_nat (length pre))) as [E|E].
    - exists rest. assert (lead = []) as -> by (destruct lead; [done|cbn in E; lia]).
      split; [|done]. rewrite Hsplit. f_equal.
    - replace (Z.of_nat (length pre) + Z.of_nat (length lead))
        with (Z.of_nat (length (pre ++ lead))) by (rewrite length_app; lia).
      replace (pre ++ s ++ zero :: rest)
        with ((pre ++ lead) ++ (core ++ trail) ++ zero :: rest)
        by (rewrite Hsplit; same_list).
      rewrite strlen_at_middle by (by apply no_nul_app).
      cbn [mbind option_bind].
      replace ((pre ++ lead) ++ (core ++ trail) ++ zero :: rest)
        with (pre ++ lead ++ ((core ++ trail) ++ [zero]) ++ rest)
        by same_list.
      replace (Z.of_nat (length (pre ++ lead)))
        with (Z.of_nat (length pre) + Z.of_nat (length lead))
        by (rewrite length_app; lia).
      replace (length (core ++ trail) + 1)%nat
        with (length ((core ++ trail) ++ [zero]))
        by (rewrite (length_app _ [zero]); done).
      rewrite memmove_run.
      eexists. split; [f_equal; same_list|].
      rewrite length_drop, !length_app. cbn [length]. lia. }
  destruct Hmove as [rest1 [-> Hrest1]]. cbn [mbind option_bind].
  rewrite strlen_at_middle by (by apply no_nul_app).
  cbn [mbind option_bind].
  replace (pre ++ (core ++ trail) ++ zero :: rest1)
    with (pre ++ core ++ trail ++ zero :: rest1) by same_list.
  rewrite cut_trailing_run; [|done|done|done|rewrite Hlen; lia].
  cbn [mbind option_bind].
  exists (replicate (length trail) zero ++ rest1). split.
  - do 2 f_equal. f_equal.
    destruct trail as [|t trail]; [done|].
    cbn [length replicate app]. f_equal.
    change (zero :: rest1) with ([zero] ++ rest1).
    rewrite app_assoc, <- replicate_S_end. done.
  - rewrite Hsplit. rewrite !length_app. cbn [length].
    rewrite !length_app, length_replicate. lia.
Qed.

End TrimFacts.

(* ===================================================================== *)
(** ** Facts about the logger *)
(* ===================================================================== *)

Section LoggerFacts.

Lemma append_assoc (a b c : string) : (a +:+ b) +:+ c = a +:+ b +:+ c.
Proof.
  induction a as [|x a IH]; [done|].
  change (String x ((a +:+ b) +:+ c) = String x (a +:+ b +:+ c)).
  by rewrite IH.
Qed.

Lemma append_nil_r (a : string) : a +:+ "" = a.
Proof.
  induction a as [|x a IH]; [done|].
  change (String x (a +:+ "") = String x a). by rewrite IH.
Qed.

Lemma append_length (a b : string) :
  String.length (a +:+ b) = (String.length a + String.length b)%nat.
Proof.
  induction a as [|x a IH]; [done|].
  change (S (String.length (a +:+ b)) = S (String.length a + String.length b)).
  by rewrite IH.
Qed.

Lemma append_grows (a b : string) : b ≠ "" → a +:+ b ≠ a.
Proof.
  intros Hb E. apply (f_equal String.length) in E.
  rewrite append_length in E. destruct b; [done|]. cbn in E. lia.
Qed.

Lemma log_line_nonempty w l msg : log_line w l msg ≠ "".
Proof. unfold log_line. rewrite append_assoc. done. Qed.

Lemma level_name_table l :
  level_str !! Z.to_nat (level_num l) = Some (level_name l).
Proof. by destruct l. Qed.

Lemma set_vars_same w : set_vars w (vars w) = w.
Proof. by destruct w. Qed.

(** Nothing sequenced after a call that exits is run. *)
Lemma bind_exits {A B} (c : M A) (k : A → M B) w status w' :
  c w = Exits status w' → (c ≫= k) w = Exits status w'.
Proof. unfold mbind, M_bind. by intros ->. Qed.

(** [fprintf] adds its text to what the stream has been given and touches
    nothing of the logger. *)
Lemma fprintf_effect w f s old :
  written w f = Some old →
  ∃ w', fprintf f s w = Returns () w' ∧
        written w' f = Some (old +:+ s) ∧
        vars w' = vars w ∧ now w' = now w.
Proof.
  intros Hw. destruct f as [| |id]; cbn in *.
  - eexists. split; [done|]. cbn. injection Hw as <-.
    by rewrite append_assoc.
  - eexists. split; [done|]. cbn. by injection Hw as <-.
  - destruct (streams w !! id) as [st|] eqn:Est; [|done].
    cbn in Hw. injection Hw as <-.
    eexists. split; [done|]. cbn. rewrite lookup_insert_eq. cbn.
    by rewrite append_assoc.
Qed.

(** [fflush] empties the buffer and loses nothing. *)
Lemma fflush_effect w f old :
  written w f = Some old →
  ∃ w', fflush f w = Returns () w' ∧
        written w' f = Some old ∧ buffered w' f = Some "" ∧
        vars w' = vars w ∧ now w' = now w.
Proof.
  intros Hw. destruct f as [| |id]; cbn in *.
  - eexists. split; [done|]. cbn. injection Hw as <-.
    by rewrite append_nil_r.
  - eexists. split; [done|]. done.
  - destruct (streams w !! id) as [st|] eqn:Est; [|done].
    cbn in Hw. injection Hw as <-.
    eexists. split; [done|]. cbn. rewrite lookup_insert_eq. cbn.
    unfold file_data at 1. cbn. rewrite lookup_insert_eq. cbn.
    by rewrite append_nil_r.
Qed.

Lemma emit_effect w f s old :
  log_file (vars w) = Some f → written w f = Some old →
  ∃ w', emit s w = Returns () w' ∧
        written w' f = Some (old +:+ s) ∧
        vars w' = vars w ∧ now w' = now w.
Proof.
  intros Hf Hw. unfold emit, mbind, M_bind, get_log_file. rewrite Hf.
  by apply fprintf_effect.
Qed.

Lemma flush_log_effect w f old :
  log_file (vars w) = Some f → written w f = Some old →
  ∃ w', flush_log w = Returns () w' ∧
        written w' f = Some old ∧ buffered w' f = Some "" ∧
        vars w' = vars w ∧ now w' = now w.
Proof.
  intros Hf Hw. unfold flush_log, mbind, M_bind, get_log_file. rewrite Hf.
  by apply fflush_effect.
Qed.

Lemma log_message_below w l msg :
  level_lt l (threshold w) →
  log_message l msg w = Returns () (after_fallback w).
Proof.
  intros Hlt. unfold level_lt, threshold in Hlt.
  unfold log_message, mbind, M_bind, get_log_file, after_fallback,
    destination, threshold.
  destruct (log_file (vars w)) as [f|] eqn:Ef; cbn.
  - destruct (Z.ltb_spec (level_num l) (level_num (current_log_level (vars w))));
      [|lia].
    cbn. f_equal. rewrite <- (set_vars_same w) at 1. f_equal.
    destruct (vars w); cbn in *. by subst.
  - destruct (Z.ltb_spec (level_num l) (level_num (current_log_level (vars w))));
      [|lia].
    done.
Qed.

Lemma after_fallback_set w f :
  log_file (vars w) = Some f → after_fallback w = w.
Proof.
  intros Hf. unfold after_fallback, destination, threshold. rewrite Hf.
  destruct w as [[lf cur] ? ? ? ? ? ? ? ? ? ? ? ?]. cbn in *. by subst.
Qed.

Lemma written_after_fallback w f : written (after_fallback w) f = written w f.
Proof. by destruct f. Qed.

(** The fallback is the whole effect of the first statement: the call goes
    on as if it had been made with the destination already settled. *)
Lemma log_message_fallback w l msg :
  log_message l msg w = log_message l msg (after_fallback w).
Proof.
  destruct (log_file (vars w)) as [f|] eqn:Ef.
  - by rewrite (after_fallback_set w f).
  - assert (Hf1 : log_file (vars (after_fallback w)) = Some stdout)
      by (unfold after_fallback, destination; by rewrite Ef).
    assert (Hset : set_log_file (Some stdout) w = Returns () (after_fallback w))
      by (unfold set_log_file, after_fallback, destination, threshold;
          by rewrite Ef).
    generalize dependent (after_fallback w). intros w1 Hf1 Hset.
    unfold log_message, mbind, M_bind, get_log_file. rewrite Ef, Hf1.
    rewrite (bool_decide_eq_true_2 (@None FILE = None)) by done.
    rewrite (bool_decide_eq_false_2 (Some stdout = None)) by done.
    by rewrite Hset.
Qed.

(** At or above the threshold the three pieces of the line are written and
    the stream is flushed; a fatal line ends the process. *)
Lemma log_message_above w l msg old :
  level_le (threshold w) l → clock_fits w →
  written w (destination w) = Some old →
  ∃ w', log_message l msg w
        = (if bool_decide (l = LOG_FATAL) then Exits EXIT_FAILURE w'
           else Returns () w') ∧
        written w' (destination w) = Some (old +:+ log_line w l msg) ∧
        buffered w' (destination w) = Some "" ∧
        vars w' = vars (after_fallback w).
Proof.
  intros Hle Hclock Hold. rewrite log_message_fallback.
  rewrite <- (written_after_fallback w) in Hold.
  set (d := destination w) in *.
  assert (Hf : log_file (vars (after_fallback w)) = Some d) by done.
  assert (Hnow : now (after_fallback w) = now w) by done.
  assert (Hcur : current_log_level (vars (after_fallback w)) = threshold w)
    by done.
  generalize dependent (after_fallback w). intros w1 Hold Hf Hnow Hcur.
  unfold log_message, mbind, M_bind, get_log_file, get_current_log_level.
  rewrite Hf.
  rewrite (bool_decide_eq_false_2 (Some d = None)) by done. cbn [mret M_ret].
  rewrite Hcur.
  unfold level_le in Hle.
  destruct (Z.ltb_spec (level_num l) (level_num (threshold w))); [lia|].
  unfold get_timestamp, mbind, M_bind, get. cbn [Z.ltb Z.compare Pos.compare Pos.compare_cont].
  rewrite Hnow.
  unfold clock_fits in Hclock.
  destruct (Z.leb_spec (Z.of_nat (String.length (now w)) + 1) 20); [|lia].
  cbn [mret M_ret]. rewrite level_name_table.
  destruct (emit_effect w1 d ("[" +:+ now w +:+ "] [" +:+ level_name l +:+ "] ")
              old Hf Hold) as (w2 & -> & Hw2 & Hv2 & _).
  rewrite <- Hv2 in Hf.
  destruct (emit_effect w2 d msg _ Hf Hw2) as (w3 & -> & Hw3 & Hv3 & _).
  rewrite <- Hv3 in Hf.
  destruct (emit_effect w3 d nl _ Hf Hw3) as (w4 & -> & Hw4 & Hv4 & _).
  rewrite <- Hv4 in Hf.
  destruct (flush_log_effect w4 d _ Hf Hw4) as (w5 & -> & Hw5 & Hb5 & Hv5 & _).
  exists w5. repeat split.
  - by destruct (bool_decide (l = LOG_FATAL)).
  - rewrite Hw5. unfold log_line. by rewrite !append_assoc.
  - done.
  - congruence.
Qed.

(** [log_init] on a path the system refuses. *)
Lemma log_init_denied w path level :
  path ∈ denied w →
  log_init (Some path) level w
  = Returns false
      (set_err (set_vars w {| log_file := None; current_log_level := level |})
         (err_shown w +:+ "Error: Could not open log file " +:+ path +:+ nl)).
Proof.
  intros Hd. unfold log_init, mbind, M_bind, set_current_log_level, fopen.
  cbn. rewrite bool_decide_eq_true_2 by done. done.
Qed.

(** [log_init] on a path, whatever comes of it. *)
Lemma log_init_path w path level :
  ∃ r w', log_init (Some path) level w = Returns r w' ∧
          threshold w' = level ∧ now w' = now w ∧
          (r = false ↔ path ∈ denied w) ∧
          (r = true →
           ∃ id st, log_file (vars w') = Some (fstream id) ∧
                    streams w' !! id = Some st).
Proof.
  unfold log_init, mbind, M_bind, set_current_log_level, fopen. cbn.
  case_bool_decide as Hd; cbn.
  - do 2 eexists. split; [done|]. repeat split; done.
  - do 2 eexists. split; [done|]. cbn. repeat split; try done.
    intros _. do 2 eexists. split; [done|]. apply lookup_insert_eq.
Qed.

(** [log_init] without a path. *)
Lemma log_init_console w level :
  log_init None level w
  = Returns true (set_vars w {| log_file := Some stdout;
                                current_log_level := level |}).
Proof. done. Qed.

(** [log_close] on an open file stream. *)
Lemma log_close_file w id st :
  log_file (vars w) = Some (fstream id) → streams w !! id = Some st →
  ∃ w', log_close w = Returns () w' ∧
        log_file (vars w') = None ∧ streams w' !! id = None ∧
        threshold w' = threshold w ∧ now w' = now w ∧
        written w' stdout = written w stdout ∧
        disk w' !! s_path st = Some (file_data w (s_path st) +:+ s_pending st).
Proof.
  intros Hf Hst.
  unfold log_close, mbind, M_bind, get_log_file, fclose, fflush.
  rewrite Hf. rewrite bool_decide_eq_true_2 by done.
  unfold mbind, M_bind. rewrite Hst. cbn.
  eexists. split; [done|]. cbn. repeat split.
  - apply lookup_delete_eq.
  - apply lookup_insert_eq.
Qed.

End LoggerFacts.

(* ===================================================================== *)
(** ** Facts about [file_read_all] *)
(* ===================================================================== *)

Section FileFacts.

Lemma to_size_t_small z : 0 ≤ z < 2 ^ 64 → to_size_t z = z.
Proof. intros H. unfold to_size_t. by apply Z.mod_small. Qed.

(** Worlds in normal form: one record, every field spelled out. *)
Ltac norm :=
  cbv [set_heap set_streams set_disk set_out set_err set_vars
       seek add_pending clear_pending];
  cbn [vars disk denied unreadable faults streams out_shown out_pending err_shown
       heap heap_room junk now s_path s_pending s_pos].

Lemma readable_frame w w' st count :
  disk w' = disk w → faults w' = faults w →
  readable w' st count = readable w st count.
Proof. intros Hd Hf. unfold readable, file_data. by rewrite Hd, Hf. Qed.

Lemma chars_length (s : string) :
  length (list_ascii_of_string s) = String.length s.
Proof. induction s as [|c s IH]; [done|]. cbn. by rewrite IH. Qed.

Lemma readable_length w st count :
  (length (readable w st count) ≤ Z.to_nat count)%nat.
Proof. unfold readable. rewrite length_take. lia. Qed.

(** A read from the start that obtains as many bytes as the file has
    obtains the file. *)
Lemma readable_full w path data :
  disk w !! path = Some data →
  read_count w path = String.length data →
  readable w {| s_path := path; s_pending := ""; s_pos := O |}
    (Z.of_nat (String.length data))
  = list_ascii_of_string data.
Proof.
  intros Hdisk. unfold read_count, readable, file_data. cbn [s_path s_pos].
  rewrite Hdisk. change (default "" (Some data)) with data.
  rewrite Nat2Z.id, !drop_0.
  destruct (faults w !! path) as [k|].
  - rewrite take_take, length_take, chars_length. intros Hlen.
    rewrite take_ge; [done|]. rewrite chars_length. lia.
  - intros _. rewrite take_ge; [done|]. by rewrite chars_length.
Qed.

(** [file_read_all] on a file that is there, with room for its buffer: the
    stream is closed again, and the result depends on the byte count of the
    read alone. *)
Lemma file_read_all_run w path data :
  disk w !! path = Some data → path ∉ unreadable w →
  Z.of_nat (String.length data) + 1 < 2 ^ 64 →
  (String.length data + 1 ≤ heap_room w)%nat →
  let b := fresh (dom (heap w)) in
  ∃ w', file_read_all (Some path) w
        = Returns (if decide (read_count w path = String.length data)
                   then Some b else None) w' ∧
        (read_count w path = String.length data →
         heap w' !! b = Some (list_ascii_of_string data ++ [zero])) ∧
        (read_count w path ≠ String.length data →
         heap w' = heap w ∧ heap_room w' = heap_room w).
Proof.
  intros Hdisk Hopen Hsize Hroom b.
  assert (Hfresh : heap w !! b = None)
    by (apply not_elem_of_dom, is_fresh).
  unfold file_read_all, mbind, M_bind, fopen. rewrite Hdisk.
  rewrite (bool_decide_eq_false_2 (path ∈ unreadable w)) by done.
  unfold fseek_end, fseek_set, ftell. norm. rewrite lookup_insert_eq. norm.
  unfold file_data. norm. rewrite Hdisk.
  change (default "" (Some data)) with data.
  rewrite lookup_insert_eq. norm. rewrite lookup_insert_eq. norm.
  rewrite !insert_insert_eq.
  set (sid := fresh (dom (streams w))).
  rewrite !to_size_t_small by lia.
  unfold safe_malloc, malloc, mbind, M_bind. norm.
  replace (Z.to_nat (Z.of_nat (String.length data) + 1))
    with (String.length data + 1)%nat by lia.
  destruct (Nat.leb_spec (String.length data + 1) (heap_room w)); [|lia].
  fold b.
  rewrite (bool_decide_eq_false_2 (Some b = None)) by done.
  cbn [andb mret M_ret]. unfold fread. norm.
  rewrite !lookup_insert_eq.
  rewrite (readable_frame w) by done.
  assert (Hrc : read_count w path
                = length (readable w {| s_path := path; s_pending := ""; s_pos := O |}
                            (Z.of_nat (String.length data)))).
  { unfold read_count, file_data. by rewrite Hdisk. }
  pose proof (readable_full w path data Hdisk) as Hfull.
  pose proof (readable_length w {| s_path := path; s_pending := ""; s_pos := O |}
                (Z.of_nat (String.length data))) as Hshort.
  rewrite Nat2Z.id in Hshort.
  set (got := readable w {| s_path := path; s_pending := ""; s_pos := O |}
                (Z.of_nat (String.length data))) in *.
  rewrite length_replicate.
  destruct (Nat.leb_spec (length got) (String.length data + 1)); [|lia].
  unfold fclose, fflush, mbind, M_bind, get, put. norm.
  rewrite ?lookup_insert_eq. norm. rewrite ?insert_insert_eq.
  rewrite !to_size_t_small by lia.
  destruct (decide (read_count w path = String.length data)) as [Heq|Hne].
  - rewrite <- Hrc, Heq, Z.eqb_refl. cbn [negb].
    unfold poke. norm. rewrite lookup_insert_eq.
    rewrite (Hfull Heq), drop_replicate.
    replace (String.length data + 1 - String.length data)%nat with 1%nat by lia.
    cbn [replicate].
    rewrite <- chars_length, store_middle.
    eexists. split; [done|]. norm. split; [|done].
    intros _. by rewrite lookup_insert_eq.
  - destruct (Z.eqb_spec (Z.of_nat (length got)) (Z.of_nat (String.length data)));
      [lia|].
    cbn [negb]. unfold free. norm. rewrite lookup_insert_eq.
    eexists. split; [done|]. norm. split; [done|]. intros _.
    rewrite ?insert_insert_eq, delete_insert_id by done. split; [done|].
    rewrite length_app, length_drop, length_replicate. lia.
Qed.


(** Opening for reading succeeds exactly for a file that is there and
    that the system does not refuse. *)
Lemma fopen_read_opens w path f w1 :
  fopen path mode_rb w = Returns (Some f) w1 →
  is_Some (disk w !! path) ∧ path ∉ unreadable w.
Proof.
  unfold fopen. destruct (disk w !! path) as [data|]; [|done].
  case_bool_decide; [done|]. intros _. by split.
Qed.

Lemma fopen_read_refused w path :
  fopen path mode_rb w = Returns None w ↔
  disk w !! path = None ∨ path ∈ unreadable w.
Proof.
  unfold fopen. destruct (disk w !! path) as [data|].
  - case_bool_decide; [by split; [right|]|].
    split; [done|]. by intros [?|?].
  - split; [by left|done].
Qed.

(** The hypothesis "a file that is there, of size 0" in the header's own
    terms: [file_exists] answers true exactly for a file that opens for
    reading, and [file_size] answers 0 exactly for such a file without
    content. *)
Lemma file_exists_on_disk w path :
  (∃ w', file_exists (Some path) w = Returns true w') ↔
  is_Some (disk w !! path) ∧ path ∉ unreadable w.
Proof.
  unfold file_exists, mbind, M_bind, fopen.
  destruct (disk w !! path) as [data|] eqn:Hd.
  - case_bool_decide as Hu.
    + split; [by intros [w' ?] | by intros [_ ?]].
    + split; [by intros _|]. intros _.
      unfold fclose, fflush, mbind, M_bind, get, put. norm.
      rewrite lookup_insert_eq. by eexists.
  - split; [by intros [w' ?]|]. by intros [[? ?] _].
Qed.

Lemma file_size_zero w path :
  (∃ w', file_size (Some path) w = Returns 0 w') ↔
  disk w !! path = Some "" ∧ path ∉ unreadable w.
Proof.
  unfold file_size, mbind, M_bind, fopen.
  destruct (disk w !! path) as [data|] eqn:Hd.
  - case_bool_decide as Hu.
    + split; [by intros [w' ?] | by intros [_ ?]].
    + unfold fseek_end, ftell. norm. rewrite lookup_insert_eq. norm.
      rewrite lookup_insert_eq. norm.
      unfold fclose, fflush, mbind, M_bind, get, put. norm.
      rewrite lookup_insert_eq.
      unfold file_data. norm. rewrite Hd.
      change (default "" (Some data)) with data.
      split.
      * intros [w' [= Hlen]]. split; [|done].
        destruct data; [done|]. cbn in Hlen. lia.
      * intros [[= ->] _]. by eexists.
  - split; [by intros [w' ?] | by intros [? _]].
Qed.

(** A file the system refuses to open is not read: [NULL], and the world
    as it was. *)
Lemma file_read_all_refused w path :
  fopen path mode_rb w = Returns None w →
  file_read_all (Some path) w = Returns None w.
Proof.
  intros Hopen. unfold file_read_all, mbind, M_bind. by rewrite Hopen.
Qed.

(** When the allocator cannot give the buffer, [safe_malloc] reports it and
    ends the process: [file_read_all] does not return. *)
Lemma file_read_all_no_room w path data :
  disk w !! path = Some data → path ∉ unreadable w →
  Z.of_nat (String.length data) + 1 < 2 ^ 64 →
  (heap_room w < String.length data + 1)%nat →
  ∃ w', file_read_all (Some path) w = Exits EXIT_FAILURE w' ∧
        err_shown w' = err_shown w +:+ "Error: Memory allocation failed" +:+ nl.
Proof.
  intros Hdisk Hopen Hsize Hroom.
  unfold file_read_all, mbind, M_bind, fopen. rewrite Hdisk.
  rewrite (bool_decide_eq_false_2 (path ∈ unreadable w)) by done.
  unfold fseek_end, fseek_set, ftell. norm. rewrite lookup_insert_eq. norm.
  unfold file_data. norm. rewrite Hdisk.
  change (default "" (Some data)) with data.
  rewrite lookup_insert_eq. norm. rewrite lookup_insert_eq. norm.
  rewrite !to_size_t_small by lia.
  unfold safe_malloc, malloc, mbind, M_bind. norm.
  replace (Z.to_nat (Z.of_nat (String.length data) + 1))
    with (String.length data + 1)%nat by lia.
  destruct (Nat.leb_spec (String.length data + 1) (heap_room w)); [lia|].
  rewrite (bool_decide_eq_true_2 (@None nat = None)) by done.
  destruct (Z.gtb_spec (Z.of_nat (String.length data) + 1) 0); [|lia].
  cbn [andb]. unfold fprintf, exit. norm.
  eexists. split; [done|]. done.
Qed.

End FileFacts.

(* ===================================================================== *)
(** ** Facts about [random_int] *)
(* ===================================================================== *)

Section RandomFacts.

Ltac int_consts :=
  unfold is_int, rand_value, INT_MIN, INT_MAX, int_add, int_sub, int_wrap in *;
  change (2 ^ 31) with 2147483648 in *;
  change (2 ^ 32) with 4294967296 in *.

Lemma int_wrap_id z : is_int z → int_wrap z = z.
Proof. int_consts. intros H. rewrite Z.mod_small; lia. Qed.

Lemma int_wrap_high z :
  INT_MAX < z < 2 ^ 32 + 2 ^ 31 → int_wrap z = z - 2 ^ 32.
Proof.
  int_consts. intros H.
  replace (z + 2147483648) with (z - 2147483648 + 1 * 4294967296) by lia.
  rewrite Z.mod_add by lia. rewrite Z.mod_small; lia.
Qed.

(** The body of [random_int] once the bounds are in order.  The span
    [hi - lo + 1] may exceed [INT_MAX]; as long as it does not wrap to zero
    the result stays between the bounds. *)
Lemma random_int_ordered r lo hi :
  rand_value r → is_int lo → is_int hi → lo ≤ hi →
  hi - lo ≠ 2 ^ 32 - 1 →
  ∃ q, int_rem r (int_add (int_sub hi lo) 1) = Some q ∧
       lo ≤ int_add lo q ≤ hi.
Proof.
  intros Hr Hlo Hhi Hle Hspan.
  assert (Hcases : hi - lo < INT_MAX ∨ hi - lo = INT_MAX ∨ INT_MAX < hi - lo)
    by lia.
  destruct Hcases as [Hsmall | [Heq | Hbig]].
  - (* the span is an [int] *)
    unfold int_sub. rewrite int_wrap_id by (int_consts; lia).
    unfold int_add at 1. rewrite int_wrap_id by (int_consts; lia).
    unfold int_rem.
    destruct (Z.eqb_spec (hi - lo + 1) 0); [lia|].
    destruct (Z.eqb_spec r INT_MIN); [int_consts; lia|]. cbn [andb].
    eexists. split; [done|].
    pose proof (Z.rem_bound_pos r (hi - lo + 1)) as Hb.
    unfold int_add. rewrite int_wrap_id; int_consts; lia.
  - (* the span is [INT_MAX + 1] and wraps to [INT_MIN] *)
    unfold int_sub. rewrite Heq, int_wrap_id by (int_consts; lia).
    change (int_add INT_MAX 1) with INT_MIN.
    unfold int_rem. change (INT_MIN =? 0) with false.
    destruct (Z.eqb_spec r INT_MIN); [int_consts; lia|]. cbn [andb].
    eexists. split; [done|].
    assert (Z.rem r INT_MIN = r) as ->
      by (unfold INT_MIN; rewrite Z.rem_opp_r by lia;
          apply Z.rem_small; int_consts; lia).
    unfold int_add. rewrite int_wrap_id; int_consts; lia.
  - (* the span wraps to a negative number *)
    unfold int_sub. rewrite int_wrap_high by (int_consts; lia).
    unfold int_add at 1. rewrite int_wrap_id by (int_consts; lia).
    unfold int_rem.
    destruct (Z.eqb_spec (hi - lo - 2 ^ 32 + 1) 0); [int_consts; lia|].
    destruct (Z.eqb_spec r INT_MIN); [int_consts; lia|]. cbn [andb].
    eexists. split; [done|].
    replace (hi - lo - 2 ^ 32 + 1) with (- (2 ^ 32 - 1 - (hi - lo))) by lia.
    rewrite Z.rem_opp_r by (int_consts; lia).
    pose proof (Z.rem_bound_pos r (2 ^ 32 - 1 - (hi - lo))) as Hb.
    assert (Hq : Z.rem r (2 ^ 32 - 1 - (hi - lo)) ≤ r)
      by (apply Z.rem_le; int_consts; lia).
    unfold int_add. rewrite int_wrap_id; int_consts; lia.
Qed.

Lemma random_int_between r a b :
  rand_value r → is_int a → is_int b →
  Z.max a b - Z.min a b ≠ 2 ^ 32 - 1 →
  ∃ v, random_int r a b = Some v ∧ Z.min a b ≤ v ≤ Z.max a b.
Proof.
  intros Hr Ha Hb Hspan. unfold random_int.
  destruct (Z.gtb_spec a b) as [Hgt|Hle].
  - rewrite Z.max_l, Z.min_r in * by lia.
    destruct (random_int_ordered r b a) as [q [-> Hq]]; try done; [lia|].
    by exists (int_add b q).
  - rewrite Z.max_r, Z.min_l in * by lia.
    destruct (random_int_ordered r a b) as [q [-> Hq]]; try done.
    by exists (int_add a q).
Qed.

End RandomFacts.

(* ===================================================================== *)
(** ** The properties of the specification *)
(* ===================================================================== *)

Section Properties.

Lemma level_order_total a b : level_le a b ∨ level_lt b a.
Proof. unfold level_le, level_lt. lia. Qed.

Lemma fatal_is_top l : level_le l LOG_FATAL.
Proof. unfold level_le. destruct l; cbn; lia. Qed.

(** Both sides of the threshold at once, with the logger's variables after
    the call. *)
Lemma log_message_writes_at_or_below w l msg old :
  clock_fits w → written w (destination w) = Some old →
  ∃ w', final (log_message l msg w) = Some w' ∧
        log_file (vars w') = Some (destination w) ∧
        (level_le (threshold w) l →
         written w' (destination w) = Some (old +:+ log_line w l msg)) ∧
        (level_lt l (threshold w) → written w' (destination w) = Some old).
Proof.
  intros Hclock Hold.
  destruct (level_order_total (threshold w) l) as [Hle|Hlt].
  - destruct (log_message_above w l msg old Hle Hclock Hold)
      as (w' & Hrun & Hw & _ & Hv).
    exists w'. split; [rewrite Hrun; by destruct (bool_decide _)|].
    split; [by rewrite Hv|]. split; [done|].
    unfold level_le, level_lt in *. lia.
  - exists (after_fallback w). rewrite (log_message_below w l msg Hlt).
    rewrite written_after_fallback. split; [done|]. split; [done|].
    unfold level_le, level_lt in *. split; [lia|done].
Qed.

(** C1. Whatever the threshold [T] and the severity [L], a call of
    [log_message] with [L] leaves a new line on the destination exactly when
    [L] is at least [T]; the line is the timestamped, labelled message.  The
    destination must be writable and the clock text must fit its buffer. *)
Theorem log_message_writes_iff_at_least_threshold
    (w : world) (T L : LogLevel) (msg old : string) :
  threshold w = T → clock_fits w → written w (destination w) = Some old →
  ∃ w', final (log_message L msg w) = Some w' ∧
        (written w' (destination w) ≠ Some old ↔ level_le T L) ∧
        (level_le T L →
         written w' (destination w) = Some (old +:+ log_line w L msg)) ∧
        (level_lt L T → written w' (destination w) = Some old).
Proof.
  intros <- Hclock Hold.
  destruct (level_order_total (threshold w) L) as [Hle|Hlt].
  - destruct (log_message_above w L msg old Hle Hclock Hold)
      as (w' & Hrun & Hw & _ & _).
    exists w'. split; [rewrite Hrun; by destruct (bool_decide _)|].
    split; [|split; [done|]].
    + split; [done|]. intros _. rewrite Hw. intros [= E].
      exact (append_grows _ _ (log_line_nonempty w L msg) E).
    + unfold level_le, level_lt in *. lia.
  - exists (after_fallback w). rewrite (log_message_below w L msg Hlt).
    rewrite written_after_fallback. split; [done|].
    unfold level_le, level_lt in *. split; [|split; [lia|done]].
    split; [done|lia].
Qed.

Lemma log_message_writes_iff_at_least_threshold_witness :
  clock_fits fresh_world ∧
  ∃ w', final (log_message LOG_ERROR "disk full" fresh_world) = Some w' ∧
        written w' stdout
        = Some ("[2025-03-01 12:00:00] [ERROR] disk full" +:+ nl).
Proof.
  assert (Hclock : clock_fits fresh_world) by (unfold clock_fits; cbn; lia).
  split; [exact Hclock|].
  destruct (log_message_writes_iff_at_least_threshold
              fresh_world LOG_INFO LOG_ERROR "disk full" ""
              eq_refl Hclock eq_refl) as (w' & Hrun & _ & Hw & _).
  exists w'. split; [exact Hrun|]. apply Hw. unfold level_le. cbn. lia.
Defined.

(** C2, as the code has it.  Below the threshold [log_message] returns at
    once: nothing is written through any stream and the threshold stays.
    The destination stays when it was set; when it was unset it is now
    standard output, the one change the call makes. *)
Theorem log_message_below_threshold_only_settles_destination
    (w : world) (L : LogLevel) (msg : string) :
  level_lt L (threshold w) →
  ∃ w', log_message L msg w = Returns () w' ∧
        w' = after_fallback w ∧
        (∀ f, written w' f = written w f) ∧
        threshold w' = threshold w ∧
        (∀ f, log_file (vars w) = Some f → w' = w) ∧
        (log_file (vars w) = None → log_file (vars w') = Some stdout).
Proof.
  intros Hlt. exists (after_fallback w).
  split; [by apply log_message_below|]. split; [done|].
  split; [apply written_after_fallback|]. split; [done|].
  split; [apply after_fallback_set|].
  intros Hf. unfold after_fallback, destination. by rewrite Hf.
Qed.

Lemma log_message_below_threshold_only_settles_destination_witness :
  level_lt LOG_DEBUG (threshold fresh_world) ∧
  ∃ w', log_message LOG_DEBUG "probe" fresh_world = Returns () w' ∧
        log_file (vars w') = Some stdout ∧
        threshold w' = LOG_INFO.
Proof.
  assert (Hlt : level_lt LOG_DEBUG (threshold fresh_world))
    by (unfold level_lt; cbn; lia).
  split; [exact Hlt|].
  destruct (log_message_below_threshold_only_settles_destination
              fresh_world LOG_DEBUG "probe" Hlt)
    as (w' & Hrun & _ & _ & Hthr & _ & Hnone).
  exists w'. split; [exact Hrun|]. split; [apply Hnone; reflexivity|exact Hthr].
Defined.

(** C2, as the specification words it, fails: in a process that has not
    initialised the logger a call below the threshold does not leave the
    logger's variables as they were. *)
Lemma log_message_below_threshold_changes_unset_destination :
  level_lt LOG_DEBUG (threshold fresh_world) ∧
  log_file (vars fresh_world) = None ∧
  ¬ ∃ w', log_message LOG_DEBUG "probe" fresh_world = Returns () w' ∧
          vars w' = vars fresh_world.
Proof.
  split; [unfold level_lt; cbn; lia|]. split; [reflexivity|].
  intros (w' & Hrun & Hvars). vm_compute in Hrun.
  injection Hrun as <-. discriminate Hvars.
Qed.

(** C3. A fatal message is written and flushed whatever the threshold, the
    process then ends with a failure status, and nothing sequenced after the
    call runs. *)
Theorem log_message_fatal_terminates (w : world) (msg old : string) :
  clock_fits w → written w (destination w) = Some old →
  ∃ w', log_message LOG_FATAL msg w = Exits EXIT_FAILURE w' ∧
        EXIT_FAILURE ≠ 0 ∧
        written w' (destination w)
        = Some (old +:+ log_line w LOG_FATAL msg) ∧
        buffered w' (destination w) = Some "" ∧
        ∀ (B : Type) (k : unit → M B),
          (log_message LOG_FATAL msg ≫= k) w = Exits EXIT_FAILURE w'.
Proof.
  intros Hclock Hold.
  destruct (log_message_above w LOG_FATAL msg old (fatal_is_top _) Hclock Hold)
    as (w' & Hrun & Hw & Hb & _).
  rewrite (bool_decide_eq_true_2 (LOG_FATAL = LOG_FATAL)) in Hrun by done.
  exists w'. repeat split; try done.
  intros B k. by apply bind_exits.
Qed.

Lemma log_message_fatal_terminates_witness :
  clock_fits fresh_world ∧
  ∃ w', (log_message LOG_FATAL "out of ideas" ≫= λ _, log_message LOG_ERROR "unreachable")
          fresh_world = Exits EXIT_FAILURE w' ∧
        written w' stdout
        = Some ("[2025-03-01 12:00:00] [FATAL] out of ideas" +:+ nl).
Proof.
  assert (Hclock : clock_fits fresh_world) by (unfold clock_fits; cbn; lia).
  split; [exact Hclock|].
  destruct (log_message_fatal_terminates fresh_world "out of ideas" ""
              Hclock eq_refl) as (w' & _ & _ & Hw & _ & Hk).
  exists w'. split; [apply Hk | exact Hw].
Defined.

(** C4. When [log_init] has opened a path, [log_close] releases the stream
    and leaves [log_file] unset; a [log_message] after that has standard
    output as its destination, stores it in [log_file], and writes there
    whatever is at or above the threshold. *)
Theorem log_close_after_init_unsets_destination
    (w w1 : world) (path : string) (level : LogLevel) :
  log_init (Some path) level w = Returns true w1 → clock_fits w →
  ∃ w2, log_close w1 = Returns () w2 ∧
        log_file (vars w2) = None ∧
        (∃ id, log_file (vars w1) = Some (fstream id) ∧
               streams w2 !! id = None) ∧
        destination w2 = stdout ∧
        ∀ l msg, ∃ w3 old,
          final (log_message l msg w2) = Some w3 ∧
          log_file (vars w3) = Some stdout ∧
          written w2 stdout = Some old ∧
          (level_le level l →
           written w3 stdout = Some (old +:+ log_line w2 l msg)) ∧
          (level_lt l level → written w3 stdout = Some old).
Proof.
  intros Hinit Hclock.
  destruct (log_init_path w path level)
    as (r & w' & Hrun & Hthr & Hnow & _ & Hopen).
  rewrite Hrun in Hinit. injection Hinit as -> ->.
  destruct (Hopen eq_refl) as (id & st & Hf & Hst).
  destruct (log_close_file w1 id st Hf Hst)
    as (w2 & Hclose & Hunset & Hgone & Hthr2 & Hnow2 & Hout & _).
  exists w2. split; [done|]. split; [done|]. split; [by exists id|].
  assert (Hdest : destination w2 = stdout)
    by (unfold destination; by rewrite Hunset).
  split; [done|]. intros l msg.
  assert (Hclock2 : clock_fits w2)
    by (unfold clock_fits in *; by rewrite Hnow2, Hnow).
  assert (Hold : written w2 (destination w2)
                 = Some (out_shown w2 +:+ out_pending w2))
    by (by rewrite Hdest).
  destruct (log_message_writes_at_or_below w2 l msg _ Hclock2 Hold)
    as (w3 & Hfin & Hvars & Hle & Hlt).
  exists w3, (out_shown w2 +:+ out_pending w2).
  rewrite Hdest in *. rewrite Hthr2, Hthr in *. by repeat split.
Qed.

Lemma log_close_after_init_unsets_destination_witness :
  clock_fits fresh_world ∧
  ∃ w1 w2 w3,
    log_init (Some "app.log") LOG_WARNING fresh_world = Returns true w1 ∧
    log_close w1 = Returns () w2 ∧ log_file (vars w2) = None ∧
    final (log_message LOG_ERROR "late" w2) = Some w3 ∧
    log_file (vars w3) = Some stdout.
Proof.
  assert (Hclock : clock_fits fresh_world) by (unfold clock_fits; cbn; lia).
  split; [exact Hclock|].
  pose (w1 := set_vars
                (set_streams
                   (set_disk fresh_world (<["app.log" := ""]> ∅))
                   (<[O := {| s_path := "app.log"; s_pending := ""; s_pos := O |}]> ∅))
                {| log_file := Some (fstream O); current_log_level := LOG_WARNING |}).
  assert (Hinit : log_init (Some "app.log") LOG_WARNING fresh_world
                  = Returns true w1) by (vm_compute; reflexivity).
  destruct (log_close_after_init_unsets_destination
              fresh_world w1 "app.log" LOG_WARNING Hinit Hclock)
    as (w2 & Hclose & Hunset & _ & _ & Hlog).
  destruct (Hlog LOG_ERROR "late") as (w3 & old & Hfin & Hf3 & _).
  exists w1, w2, w3. repeat split; assumption.
Defined.

(** C5. When the path cannot be opened for appending, [log_init] returns
    false, the diagnostic is on standard error and [log_file] is unset. *)
Theorem log_init_failure_reported
    (w w0 : world) (path : string) (level : LogLevel) :
  fopen path mode_a w = Returns None w0 →
  ∃ w', log_init (Some path) level w = Returns false w' ∧
        err_shown w'
        = err_shown w +:+ "Error: Could not open log file " +:+ path +:+ nl ∧
        log_file (vars w') = None.
Proof.
  intros Hopen.
  assert (Hd : path ∈ denied w).
  { unfold fopen in Hopen. by case_bool_decide. }
  rewrite (log_init_denied w path level Hd). by eexists.
Qed.

Lemma log_init_failure_reported_witness :
  fopen "/var/log/app.log" mode_a locked_world = Returns None locked_world ∧
  ∃ w', log_init (Some "/var/log/app.log") LOG_DEBUG locked_world
        = Returns false w' ∧
        err_shown w'
        = "Error: Could not open log file /var/log/app.log" +:+ nl ∧
        log_file (vars w') = None.
Proof.
  assert (Hopen : fopen "/var/log/app.log" mode_a locked_world
                  = Returns None locked_world) by (vm_compute; reflexivity).
  split; [exact Hopen|].
  exact (log_init_failure_reported locked_world locked_world
           "/var/log/app.log" LOG_DEBUG Hopen).
Defined.

(** C6. [log_init] stores the requested level before anything else, so the
    threshold is the new one whatever the call returns; for a path it
    returns false exactly when the path cannot be opened, and the threshold
    has changed all the same. *)
Theorem log_init_sets_threshold_regardless
    (w : world) (filename : option string) (L : LogLevel) :
  ∃ r w', log_init filename L w = Returns r w' ∧
          threshold w' = L ∧
          ∀ path, filename = Some path → (r = false ↔ path ∈ denied w).
Proof.
  destruct filename as [path|].
  - destruct (log_init_path w path L) as (r & w' & Hrun & Hthr & _ & Hiff & _).
    exists r, w'. split; [done|]. split; [done|]. by intros ? [= <-].
  - rewrite log_init_console. do 2 eexists. split; [done|]. by split.
Qed.

(** A failed [log_init] has moved the threshold from its initial [LOG_INFO]. *)
Lemma log_init_sets_threshold_regardless_witness :
  threshold locked_world = LOG_INFO ∧
  ∃ w', log_init (Some "/var/log/app.log") LOG_DEBUG locked_world
        = Returns false w' ∧ threshold w' = LOG_DEBUG.
Proof.
  split; [reflexivity|].
  destruct (log_init_sets_threshold_regardless
              locked_world (Some "/var/log/app.log") LOG_DEBUG)
    as (r & w' & Hrun & Hthr & Hiff).
  assert (Hr : r = false)
    by (apply (Hiff "/var/log/app.log" eq_refl); vm_compute; reflexivity).
  exists w'. rewrite Hr in Hrun. split; [exact Hrun | exact Hthr].
Defined.

(** C7. For a file that has no byte and that opens for reading,
    [file_read_all] returns a block that was not allocated before and holds
    the terminator alone, the empty string, whenever the allocator grants
    its one byte, and in no case does it return [NULL] (without that byte
    [safe_malloc] ends the process).  That the file opens is part of the
    condition: [file_read_all] returns [NULL] for a file that is there and
    that [fopen] refuses.  For any file, a read that obtains another number
    of bytes than the size queried makes [file_read_all] free the buffer
    and return [NULL]. *)
Theorem file_read_all_empty_file_and_short_read :
  (∀ w path f w1,
     disk w !! path = Some "" →
     fopen path mode_rb w = Returns (Some f) w1 →
     (1 ≤ heap_room w)%nat →
     ∃ b w', file_read_all (Some path) w = Returns (Some b) w' ∧
             heap w !! b = None ∧
             heap w' !! b = Some [zero] ∧
             string_at [zero] 0 = Some []) ∧
  (∀ w path f w1 w',
     disk w !! path = Some "" →
     fopen path mode_rb w = Returns (Some f) w1 →
     file_read_all (Some path) w ≠ Returns None w') ∧
  (∀ w path data,
     disk w !! path = Some data →
     Z.of_nat (String.length data) + 1 < 2 ^ 64 →
     (String.length data + 1 ≤ heap_room w)%nat →
     read_count w path ≠ String.length data →
     ∃ w', file_read_all (Some path) w = Returns None w' ∧
           heap w' = heap w ∧ heap_room w' = heap_room w).
Proof.
  assert (Hzero : ∀ w path, disk w !! path = Some "" → read_count w path = O).
  { intros w path Hd. unfold read_count, readable, file_data.
    rewrite Hd. cbn. by destruct (faults w !! path). }
  split; [|split].
  - intros w path f w1 Hdisk Hopen Hroom.
    apply fopen_read_opens in Hopen as [_ Hopen].
    destruct (file_read_all_run w path "" Hdisk Hopen)
      as (w' & Hrun & Hsome & _); [done|cbn; lia|].
    rewrite (Hzero w path Hdisk) in *.
    rewrite decide_True in Hrun by done.
    exists (fresh (dom (heap w))), w'. split; [done|].
    split; [apply not_elem_of_dom, is_fresh|]. split; [by apply Hsome|done].
  - intros w path f w1 w' Hdisk Hopen.
    apply fopen_read_opens in Hopen as [_ Hopen].
    destruct (decide (1 ≤ heap_room w)%nat) as [Hroom|Hroom].
    + destruct (file_read_all_run w path "" Hdisk Hopen) as (w2 & Hrun & _);
        [done|cbn; lia|].
      rewrite (Hzero w path Hdisk) in Hrun.
      rewrite decide_True in Hrun by done. by rewrite Hrun.
    + destruct (file_read_all_no_room w path "" Hdisk Hopen)
        as (w2 & Hrun & _); [done|cbn; lia|].
      by rewrite Hrun.
  - intros w path data Hdisk Hsize Hroom Hne.
    destruct (decide (path ∈ unreadable w)) as [Hrefused|Hopen].
    + exists w. split; [|done].
      apply file_read_all_refused, fopen_read_refused. by right.
    + destruct (file_read_all_run w path data Hdisk Hopen Hsize Hroom)
        as (w' & Hrun & _ & Hfree).
      rewrite decide_False in Hrun by done.
      exists w'. split; [done|]. by apply Hfree.
Qed.

Lemma file_read_all_empty_file_and_short_read_witness :
  (∃ f w1, fopen "empty.txt" mode_rb files_world = Returns (Some f) w1) ∧
  (∃ b w', file_read_all (Some "empty.txt") files_world = Returns (Some b) w' ∧
           heap w' !! b = Some [zero]) ∧
  read_count files_world "data.bin" = 3%nat ∧
  (∃ w', file_read_all (Some "data.bin") files_world = Returns None w' ∧
         heap w' = heap files_world).
Proof.
  destruct file_read_all_empty_file_and_short_read as (Hempty & _ & Hshort).
  assert (Hopen : ∃ f w1, fopen "empty.txt" mode_rb files_world
                          = Returns (Some f) w1)
    by (do 2 eexists; vm_compute; reflexivity).
  split; [exact Hopen|]. destruct Hopen as (f & w1 & Hopen).
  split; [|split; [reflexivity|]].
  - destruct (Hempty files_world "empty.txt" f w1)
      as (b & w' & Hrun & _ & Hb & _); [reflexivity | exact Hopen | cbn; lia |].
    exists b, w'. split; [exact Hrun | exact Hb].
  - destruct (Hshort files_world "data.bin" "abcdef") as (w' & Hrun & Hh & _);
      [reflexivity | cbn; lia | cbn; lia | vm_compute; lia |].
    exists w'. split; [exact Hrun | exact Hh].
Defined.

Lemma is_trim_space_chars c :
  is_trim_space c = true ↔
  c = " "%char ∨ c = "009"%char ∨ c = "010"%char ∨ c = "013"%char.
Proof.
  unfold is_trim_space. rewrite !orb_true_iff, !Ascii.eqb_eq. tauto.
Qed.

(** C8. [str_trim] returns the pointer it was given and leaves at it the
    string without its leading and its trailing run of space, tab, newline
    and carriage return; the bytes before the pointer and the size of the
    object are as they were.  [" \t hi \n"] becomes ["hi"], the empty
    string stays empty, and [NULL] is returned for [NULL]. *)
Theorem str_trim_removes_surrounding_whitespace :
  (∀ pre s rest,
     no_nul s →
     ∃ m', str_trim (pre ++ s ++ zero :: rest) (Some (Z.of_nat (length pre)))
           = Some (m', Some (Z.of_nat (length pre))) ∧
           length m' = length (pre ++ s ++ zero :: rest) ∧
           take (length pre) m' = pre ∧
           string_at m' (Z.of_nat (length pre)) = Some (trimmed s) ∧
           ∃ lead trail,
             s = lead ++ trimmed s ++ trail ∧
             all_spaces lead ∧ all_spaces trail ∧
             not_space (head (trimmed s)) ∧ not_space (last (trimmed s))) ∧
  (∀ c, is_trim_space c = true ↔
        c = " "%char ∨ c = "009"%char ∨ c = "010"%char ∨ c = "013"%char) ∧
  (∃ m', str_trim padded_hi (Some 0) = Some (m', Some 0) ∧
         string_at m' 0 = Some (lit "hi")) ∧
  (∃ m', str_trim (c_lit "") (Some 0) = Some (m', Some 0) ∧
         string_at m' 0 = Some (lit "")) ∧
  (∀ m, str_trim m None = Some (m, None)).
Proof.
  split; [|split; [apply is_trim_space_chars|split; [|split]]].
  - intros pre s rest Hs.
    destruct (str_trim_run pre s rest Hs) as (rest' & Hrun & Hlen).
    destruct (trimmed_split s)
      as (lead & trail & Hsplit & _ & Hlead & Htrail & Hhead & Hlast).
    exists (pre ++ trimmed s ++ zero :: rest'). split; [done|].
    split; [by rewrite !(length_app pre), Hlen|].
    split; [by rewrite take_app_length|]. split.
    + apply string_at_middle. rewrite Hsplit in Hs.
      apply no_nul_app in Hs as [_ Hs]. by apply no_nul_app in Hs as [Hs _].
    + by exists lead, trail.
  - eexists. split; [vm_compute; reflexivity|]. vm_compute. reflexivity.
  - eexists. split; [vm_compute; reflexivity|]. vm_compute. reflexivity.
  - done.
Qed.

Lemma str_trim_removes_surrounding_whitespace_witness :
  no_nul (lit "  ok ") ∧
  ∃ m', str_trim (lit "id=" ++ lit "  ok " ++ zero :: lit "zz") (Some 3)
        = Some (m', Some 3) ∧
        string_at m' 3 = Some (lit "ok").
Proof.
  assert (Hs : no_nul (lit "  ok "))
    by (unfold no_nul; cbn; repeat constructor; discriminate).
  split; [exact Hs|].
  destruct str_trim_removes_surrounding_whitespace as (Hgen & _).
  destruct (Hgen (lit "id=") (lit "  ok ") (lit "zz") Hs)
    as (m' & Hrun & _ & _ & Hstr & _).
  exists m'. split; [exact Hrun | exact Hstr].
Defined.

(** C9. On strings, [str_starts_with] is true exactly for a prefix and
    [str_ends_with] exactly for a suffix; both are false as soon as an
    argument is [NULL]; the four examples of the specification hold. *)
Theorem str_starts_ends_with_decide_prefix_suffix :
  (∀ vs vp s p,
     cstring vs s → cstring vp p →
     ∃ b, str_starts_with (Some vs) (Some vp) = Some b ∧
          (b = true ↔ p `prefix_of` s)) ∧
  (∀ vs vx s x,
     cstring vs s → cstring vx x →
     ∃ b, str_ends_with (Some vs) (Some vx) = Some b ∧
          (b = true ↔ x `suffix_of` s)) ∧
  (∀ a, str_starts_with None a = Some false ∧
        str_starts_with a None = Some false ∧
        str_ends_with None a = Some false ∧
        str_ends_with a None = Some false) ∧
  str_starts_with (Some (c_lit "hello world")) (Some (c_lit "hello"))
  = Some true ∧
  str_starts_with (Some (c_lit "hi")) (Some (c_lit "hello")) = Some false ∧
  str_ends_with (Some (c_lit "report.txt")) (Some (c_lit ".txt")) = Some true ∧
  str_ends_with (Some (c_lit "x")) (Some (c_lit "xxx")) = Some false.
Proof.
  split; [exact str_starts_with_spec|].
  split; [exact str_ends_with_spec|].
  split; [intros [a|]; by repeat split|].
  repeat split; vm_compute; reflexivity.
Qed.

Lemma str_starts_ends_with_decide_prefix_suffix_witness :
  cstring (c_lit "utils.h") (lit "utils.h") ∧
  cstring (c_lit ".h") (lit ".h") ∧
  ∃ b, str_ends_with (Some (c_lit "utils.h")) (Some (c_lit ".h")) = Some b ∧
       (b = true ↔ lit ".h" `suffix_of` lit "utils.h").
Proof.
  assert (H1 : cstring (c_lit "utils.h") (lit "utils.h")).
  { split; [unfold no_nul; cbn; repeat constructor; discriminate|].
    by exists []. }
  assert (H2 : cstring (c_lit ".h") (lit ".h")).
  { split; [unfold no_nul; cbn; repeat constructor; discriminate|].
    by exists []. }
  split; [exact H1|]. split; [exact H2|].
  destruct str_starts_ends_with_decide_prefix_suffix as (_ & Hends & _).
  exact (Hends _ _ _ _ H1 H2).
Defined.

(** C10, at the input where the code fails.  For the bounds [INT_MAX] and
    [INT_MIN], given in reversed order, the span [max - min + 1] wraps to
    zero and the remainder has no value: [random_int] returns nothing,
    whatever [rand()] produced. *)
Theorem random_int_full_span_has_no_result (r : Z) :
  INT_MAX > INT_MIN ∧ is_int INT_MAX ∧ is_int INT_MIN ∧
  int_add (int_sub INT_MAX INT_MIN) 1 = 0 ∧
  random_int r INT_MAX INT_MIN = None.
Proof. repeat split; try (vm_compute; congruence). Qed.

(** Everywhere else the claim of C10 holds: reversed bounds are swapped and
    the result lies between them, also when the span exceeds [INT_MAX] and
    wraps; in particular for the bounds 5 and 1. *)
Lemma random_int_reversed_bounds r a b :
  rand_value r → is_int a → is_int b → a > b →
  ¬ (a = INT_MAX ∧ b = INT_MIN) →
  ∃ v, random_int r a b = Some v ∧ b ≤ v ≤ a.
Proof.
  intros Hr Ha Hb Hgt Hnot.
  destruct (random_int_between r a b Hr Ha Hb) as (v & Hv & Hrange).
  - rewrite Z.max_l, Z.min_r by lia.
    unfold is_int, INT_MIN, INT_MAX in *.
    change (2 ^ 31) with 2147483648 in *.
    change (2 ^ 32) with 4294967296. lia.
  - exists v. split; [done|]. lia.
Qed.

Lemma random_int_5_1 r :
  rand_value r → ∃ v, random_int r 5 1 = Some v ∧ 1 ≤ v ≤ 5.
Proof.
  intros Hr.
  apply random_int_reversed_bounds; try done;
    unfold is_int, INT_MIN, INT_MAX; lia.
Qed.

End Properties.

(* ===================================================================== *)
(** ** Further properties: the allocation wrappers *)
(* ===================================================================== *)

Section AllocationProperties.

Ltac flat :=
  cbv [set_heap set_streams set_disk set_out set_err set_vars
       seek add_pending clear_pending];
  cbn [vars disk denied unreadable faults streams out_shown out_pending err_shown
       heap heap_room junk now s_path s_pending s_pos].

Lemma fresh_block_unused w : heap w !! fresh (dom (heap w)) = None.
Proof. apply not_elem_of_dom, is_fresh. Qed.

(** X1. [safe_malloc] never hands a null pointer to a caller that asked for
    at least one byte: either the caller gets a block that was not
    allocated before, of exactly the size asked for, or the diagnostic goes
    to standard error and the process ends with a failure status, the heap
    untouched.  A request for no byte always returns. *)
Theorem safe_malloc_block_or_exit :
  (∀ w size,
     0 < size →
     (∃ b w', safe_malloc size w = Returns (Some b) w' ∧
              heap w !! b = None ∧
              heap w' = <[b := replicate (Z.to_nat size) (junk w)]> (heap w) ∧
              (heap_room w' + Z.to_nat size = heap_room w)%nat) ∨
     (∃ w', safe_malloc size w = Exits EXIT_FAILURE w' ∧
            (heap_room w < Z.to_nat size)%nat ∧
            err_shown w'
            = err_shown w +:+ "Error: Memory allocation failed" +:+ nl ∧
            heap w' = heap w)) ∧
  (∀ w, ∃ p w', safe_malloc 0 w = Returns p w').
Proof.
  split.
  - intros w size Hpos. unfold safe_malloc, malloc, mbind, M_bind.
    destruct (Nat.leb_spec (Z.to_nat size) (heap_room w)) as [Hroom|Hroom].
    + left. rewrite (bool_decide_eq_false_2 (Some _ = None)) by done.
      cbn [andb]. do 2 eexists. split; [done|]. flat.
      split; [apply fresh_block_unused|]. split; [done|lia].
    + right. rewrite (bool_decide_eq_true_2 (@None nat = None)) by done.
      destruct (Z.gtb_spec size 0); [|lia]. cbn [andb].
      eexists. split; [done|]. flat. by repeat split.
  - intros w. unfold safe_malloc, malloc, mbind, M_bind.
    destruct (Z.to_nat 0 <=? heap_room w)%nat.
    + rewrite (bool_decide_eq_false_2 (Some _ = None)) by done.
      by do 2 eexists.
    + rewrite andb_false_r. by do 2 eexists.
Qed.

Lemma safe_malloc_block_or_exit_witness :
  (∃ b w', safe_malloc 8 heap_world = Returns (Some b) w' ∧
           heap w' !! b = Some (replicate 8 "205"%char)) ∧
  (∃ w', safe_malloc 9 heap_world = Exits EXIT_FAILURE w').
Proof.
  destruct safe_malloc_block_or_exit as [Hpos _]. split.
  - destruct (Hpos heap_world 8) as [(b & w' & Hrun & _ & Hheap & _) | (w' & _ & Hroom & _)];
      [lia | | cbn in Hroom; lia].
    exists b, w'. split; [exact Hrun|]. rewrite Hheap. apply lookup_insert_eq.
  - destruct (Hpos heap_world 9) as [(b & w' & _ & _ & _ & Hroom) | (w' & Hrun & _)];
      [lia | cbn in Hroom; lia |].
    exists w'. exact Hrun.
Defined.

(** X2. [safe_calloc] gives a block of [nmemb * size] zero bytes that was
    not allocated before, or ends the process with the diagnostic; it ends
    the process only when both counts are positive, also when their product
    does not fit [size_t]. *)
Theorem safe_calloc_zeroed_or_exit (w : world) (nmemb size : Z) :
  0 ≤ nmemb → 0 ≤ size →
  (∃ p w', safe_calloc nmemb size w = Returns p w' ∧
           (0 < nmemb → 0 < size →
            ∃ b, p = Some b ∧ heap w !! b = None ∧
                 heap w' !! b = Some (replicate (Z.to_nat (nmemb * size)) zero))) ∨
  (∃ w', safe_calloc nmemb size w = Exits EXIT_FAILURE w' ∧
         0 < nmemb ∧ 0 < size ∧
         (2 ^ 64 ≤ nmemb * size ∨ (heap_room w < Z.to_nat (nmemb * size))%nat) ∧
         err_shown w'
         = err_shown w +:+ "Error: Memory allocation failed" +:+ nl ∧
         heap w' = heap w).
Proof.
  intros Hn Hs. unfold safe_calloc, calloc, mbind, M_bind.
  destruct (Z.leb_spec (2 ^ 64) (nmemb * size)) as [Hbig|Hfit];
    [|destruct (Nat.leb_spec (Z.to_nat (nmemb * size)) (heap_room w))
        as [Hroom|Hroom]].
  2: { left. rewrite (bool_decide_eq_false_2 (Some _ = None)) by done.
       cbn [andb]. do 2 eexists. split; [done|]. intros _ _.
       eexists. split; [done|]. split; [apply fresh_block_unused|].
       flat. apply lookup_insert_eq. }
  all: rewrite (bool_decide_eq_true_2 (@None nat = None)) by done; cbn [andb];
    destruct (Z.gtb_spec nmemb 0) as [Hn'|Hn']; cbn [andb];
    [destruct (Z.gtb_spec size 0) as [Hs'|Hs']|];
    [ right; eexists; split; [done|]; flat; repeat split; auto
    | left; do 2 eexists; split; [done|]; lia
    | left; do 2 eexists; split; [done|]; lia ].
Qed.

Lemma safe_calloc_zeroed_or_exit_witness :
  (∃ b w', safe_calloc 2 3 heap_world = Returns (Some b) w' ∧
           heap w' !! b = Some (replicate 6 zero)) ∧
  (∃ w', safe_calloc (2 ^ 63) 2 heap_world = Exits EXIT_FAILURE w').
Proof.
  split.
  - destruct (safe_calloc_zeroed_or_exit heap_world 2 3)
      as [(p & w' & Hrun & Hblock) | (w' & _ & _ & _ & Hwhy & _)];
      [lia | lia | | cbn in Hwhy; lia].
    destruct Hblock as (b & -> & _ & Hb); [lia|lia|].
    exists b, w'. split; [exact Hrun | exact Hb].
  - destruct (safe_calloc_zeroed_or_exit heap_world (2 ^ 63) 2)
      as [(p & w' & Hrun & Hblock) | (w' & Hrun & _)]; [lia | lia | |].
    + destruct Hblock as (b & -> & _ & _); [lia|lia|].
      vm_compute in Hrun. discriminate Hrun.
    + exists w'. exact Hrun.
Defined.

(** X3. [safe_realloc] of a live block to a positive size either returns a
    block of the new size that starts with the old bytes (as many as fit),
    leaving every other block alone and the old address dead unless it is
    reused, or prints its diagnostic, frees the original block and ends the
    process.  For size 0 it never ends the process, whatever [realloc]
    answers. *)
Theorem safe_realloc_keeps_prefix_or_exit :
  (∀ w b old size,
     heap w !! b = Some old → 0 < size →
     (∃ b' w' new,
        safe_realloc (Some b) size w = Returns (Some b') w' ∧
        heap w' !! b' = Some new ∧
        length new = Z.to_nat size ∧
        take (length old) new = take (Z.to_nat size) old ∧
        (b' ≠ b → heap w' !! b = None) ∧
        (∀ j, j ≠ b → j ≠ b' → heap w' !! j = heap w !! j)) ∨
     (∃ w', safe_realloc (Some b) size w = Exits EXIT_FAILURE w' ∧
            (heap_room w + length old < Z.to_nat size)%nat ∧
            heap w' !! b = None ∧
            err_shown w'
            = err_shown w +:+ "Error: Memory reallocation failed" +:+ nl)) ∧
  (∀ w b old,
     heap w !! b = Some old →
     ∃ p w', safe_realloc (Some b) 0 w = Returns p w').
Proof.
  split.
  - intros w b old size Hb Hpos.
    unfold safe_realloc, realloc, mbind, M_bind. rewrite Hb.
    destruct (Z.eqb_spec size 0); [lia|].
    destruct (Nat.leb_spec (Z.to_nat size) (heap_room w + length old))
      as [Hroom|Hroom].
    + left. rewrite (bool_decide_eq_false_2 (Some _ = None)) by done.
      cbn [andb]. do 3 eexists. split; [done|]. flat.
      set (b' := fresh (dom (delete b (heap w)))).
      split; [apply lookup_insert_eq|].
      split; [rewrite length_app, length_take, length_replicate; lia|].
      split.
      * destruct (decide (length old ≤ Z.to_nat size)%nat).
        -- rewrite !(take_ge old (Z.to_nat size)) by done.
           apply take_app_length.
        -- replace (Z.to_nat size - length old)%nat with O by lia.
           cbn [replicate]. rewrite app_nil_r.
           apply take_ge. rewrite length_take. lia.
      * split.
        -- intros Hne. rewrite lookup_insert_ne by done.
           apply lookup_delete_eq.
        -- intros j Hj Hj'. rewrite lookup_insert_ne by done.
           by rewrite lookup_delete_ne.
    + right. rewrite (bool_decide_eq_true_2 (@None nat = None)) by done.
      destruct (Z.gtb_spec size 0); [|lia]. cbn [andb].
      unfold fprintf, free, exit, mbind, M_bind. flat. rewrite Hb.
      eexists. split; [done|]. flat. split; [done|].
      split; [apply lookup_delete_eq | done].
  - intros w b old Hb.
    unfold safe_realloc, realloc, mbind, M_bind. rewrite Hb.
    cbn [Z.eqb]. rewrite andb_false_r. by do 2 eexists.
Qed.

Lemma safe_realloc_keeps_prefix_or_exit_witness :
  heap heap_world !! O = Some (lit "abc") ∧
  (∃ b' w' new, safe_realloc (Some O) 5 heap_world = Returns (Some b') w' ∧
                heap w' !! b' = Some new ∧ take 3 new = lit "abc") ∧
  (∃ w', safe_realloc (Some O) 12 heap_world = Exits EXIT_FAILURE w' ∧
         heap w' !! O = None).
Proof.
  assert (Hb : heap heap_world !! O = Some (lit "abc")) by reflexivity.
  destruct safe_realloc_keeps_prefix_or_exit as [Hpos _].
  split; [exact Hb|]. split.
  - destruct (Hpos heap_world O (lit "abc") 5 Hb)
      as [(b' & w' & new & Hrun & Hnew & _ & Htake & _) | (w' & _ & Hroom & _)];
      [lia | | cbn in Hroom; lia].
    exists b', w', new. split; [exact Hrun|]. split; [exact Hnew | exact Htake].
  - destruct (Hpos heap_world O (lit "abc") 12 Hb)
      as [(b' & w' & new & Hrun & _) | (w' & Hrun & _ & Hgone & _)]; [lia | |].
    + vm_compute in Hrun. discriminate Hrun.
    + exists w'. split; [exact Hrun | exact Hgone].
Defined.

(** X4. [safe_free] frees the block its variable holds and leaves [NULL] in
    the variable, so a second [safe_free] of the same variable does nothing:
    the block is not freed twice.  A null variable and a null pointer to the
    variable are left as they are. *)
Theorem safe_free_once (w : world) (b : nat) (old : list ascii) :
  heap w !! b = Some old →
  ∃ w', safe_free (Some (Some b)) w = Returns (Some None) w' ∧
        heap w' = delete b (heap w) ∧
        heap_room w' = (heap_room w + length old)%nat ∧
        (safe_free (Some (Some b)) ≫= safe_free) w = Returns (Some None) w' ∧
        (∀ w0, safe_free (Some None) w0 = Returns (Some None) w0) ∧
        (∀ w0, safe_free None w0 = Returns None w0).
Proof.
  intros Hb. unfold safe_free, free, mbind, M_bind. rewrite Hb.
  eexists. split; [done|]. flat. by repeat split.
Qed.

Lemma safe_free_once_witness :
  heap heap_world !! 1%nat = Some (lit "xy") ∧
  ∃ w', (safe_free (Some (Some 1%nat)) ≫= safe_free) heap_world
        = Returns (Some None) w' ∧
        heap w' = delete 1%nat (heap heap_world) ∧
        heap_room w' = 10%nat.
Proof.
  assert (Hb : heap heap_world !! 1%nat = Some (lit "xy")) by reflexivity.
  split; [exact Hb|].
  destruct (safe_free_once heap_world 1 (lit "xy") Hb)
    as (w' & _ & Hheap & Hroom & Htwice & _).
  exists w'. split; [exact Htwice|]. split; [exact Hheap | exact Hroom].
Defined.

Lemma take_cstring v s : cstring v s → take (S (length s)) v = s ++ [zero].
Proof.
  intros [_ [rest ->]].
  replace (s ++ zero :: rest) with ((s ++ [zero]) ++ rest)
    by (by rewrite <- app_assoc).
  apply take_app_length'. rewrite length_app. cbn. lia.
Qed.

(** X5. [str_duplicate] of a string returns a block that was not allocated
    before and holds the characters of the string and the terminator, all
    other blocks as they were, or ends the process when the allocator has
    no room for them; of [NULL] it returns [NULL]. *)
Theorem str_duplicate_copies :
  (∀ w v s,
     cstring v s →
     (∃ b w', str_duplicate (Some v) w = Returns (Some b) w' ∧
              heap w !! b = None ∧
              heap w' = <[b := s ++ [zero]]> (heap w) ∧
              string_at (s ++ [zero]) 0 = Some s) ∨
     (∃ w', str_duplicate (Some v) w = Exits EXIT_FAILURE w' ∧
            (heap_room w < length s + 1)%nat ∧ heap w' = heap w)) ∧
  (∀ w, str_duplicate None w = Returns None w).
Proof.
  split; [|done]. intros w v s Hv.
  unfold str_duplicate. rewrite (strlen_cstring v s Hv).
  unfold safe_malloc, malloc, mbind, M_bind.
  replace (Z.to_nat (Z.of_nat (length s) + 1)) with (S (length s)) by lia.
  destruct (Nat.leb_spec (S (length s)) (heap_room w)) as [Hroom|Hroom].
  - left. rewrite (bool_decide_eq_false_2 (Some _ = None)) by done.
    cbn [andb mret M_ret]. unfold strcpy. rewrite (strlen_cstring v s Hv).
    flat. rewrite lookup_insert_eq, length_replicate.
    destruct (Nat.leb_spec (S (length s)) (S (length s))); [|lia].
    do 2 eexists. split; [done|]. flat.
    split; [apply fresh_block_unused|]. split.
    + rewrite insert_insert_eq. f_equal.
      rewrite (take_cstring v s Hv), drop_replicate.
      replace (S (length s) - S (length s))%nat with O by lia.
      cbn [replicate]. by rewrite app_nil_r.
    + destruct Hv as [Hs _].
      change (s ++ [zero]) with ([] ++ s ++ zero :: []).
      by apply (string_at_middle [] s []).
  - right. rewrite (bool_decide_eq_true_2 (@None nat = None)) by done.
    destruct (Z.gtb_spec (Z.of_nat (length s) + 1) 0); [|lia]. cbn [andb].
    unfold fprintf, exit. flat. eexists. split; [done|]. flat.
    split; [lia|done].
Qed.

Lemma str_duplicate_copies_witness :
  cstring (c_lit "abc") (lit "abc") ∧
  ∃ b w', str_duplicate (Some (c_lit "abc")) heap_world = Returns (Some b) w' ∧
          heap w' !! b = Some (c_lit "abc").
Proof.
  assert (Hv : cstring (c_lit "abc") (lit "abc")).
  { split; [unfold no_nul; cbn; repeat constructor; discriminate|].
    by exists []. }
  split; [exact Hv|].
  destruct str_duplicate_copies as [Hcopy _].
  destruct (Hcopy heap_world _ _ Hv)
    as [(b & w' & Hrun & _ & Hheap & _) | (w' & _ & Hroom & _)];
    [|cbn in Hroom; lia].
  exists b, w'. split; [exact Hrun|]. rewrite Hheap. apply lookup_insert_eq.
Defined.

End AllocationProperties.

(* ===================================================================== *)
(** ** Further properties: the string helpers *)
(* ===================================================================== *)

Section StringProperties.

(** On a string that neither starts nor ends with a trimmed character
    [str_trim] writes nothing. *)
Lemma str_trim_nothing_to_do pre s rest :
  no_nul s → not_space (head s) → not_space (last s) →
  str_trim (pre ++ s ++ zero :: rest) (Some (Z.of_nat (length pre)))
  = Some (pre ++ s ++ zero :: rest, Some (Z.of_nat (length pre))).
Proof.
  intros Hs Hhead Hlast. unfold str_trim.
  assert (Hskip :
    skip_leading (S (length (pre ++ s ++ zero :: rest)))
      (pre ++ s ++ zero :: rest) (Z.of_nat (length pre))
    = Some (Z.of_nat (length pre) + Z.of_nat (length (@nil ascii)))).
  { destruct (s ++ zero :: rest) as [|c tl] eqn:E; [by destruct s|].
    apply (skip_leading_run [] pre c tl); [constructor|constructor| |cbn; lia].
    destruct s as [|x s'].
    - cbn in E. injection E as <- _. by left.
    - cbn in E. injection E as <- _. right. by apply Hhead. }
  rewrite Hskip. cbn [length mbind option_bind].
  rewrite Z.add_0_r, Z.eqb_refl. cbn [mbind option_bind].
  rewrite strlen_at_middle by done. cbn [mbind option_bind].
  pose proof (cut_trailing_run [] pre s (zero :: rest)
                (S (length (pre ++ s ++ zero :: rest)))) as Hcut.
  rewrite app_nil_r in Hcut. cbn [app length replicate] in Hcut.
  rewrite Hcut; [done|constructor|done|done|lia].
Qed.

Lemma trimmed_no_nul s : no_nul s → no_nul (trimmed s).
Proof.
  intros Hs. destruct (trimmed_split s) as (lead & trail & Hsplit & _).
  rewrite Hsplit in Hs. apply no_nul_app in Hs as [_ Hs].
  by apply no_nul_app in Hs as [Hs _].
Qed.

(** X6. Trimming twice is trimming once: a second [str_trim] on the result
    of the first leaves the object byte for byte as it is.  More generally
    [str_trim] writes nothing when the string neither starts nor ends with
    a trimmed character, whatever it has inside. *)
Theorem str_trim_idempotent :
  (∀ pre s rest,
     no_nul s →
     ∃ m', str_trim (pre ++ s ++ zero :: rest) (Some (Z.of_nat (length pre)))
           = Some (m', Some (Z.of_nat (length pre))) ∧
           str_trim m' (Some (Z.of_nat (length pre)))
           = Some (m', Some (Z.of_nat (length pre)))) ∧
  (∀ pre s rest,
     no_nul s → not_space (head s) → not_space (last s) →
     str_trim (pre ++ s ++ zero :: rest) (Some (Z.of_nat (length pre)))
     = Some (pre ++ s ++ zero :: rest, Some (Z.of_nat (length pre)))).
Proof.
  split; [|exact str_trim_nothing_to_do].
  intros pre s rest Hs.
  destruct (str_trim_run pre s rest Hs) as (rest' & Hrun & _).
  destruct (trimmed_split s) as (_ & _ & _ & _ & _ & _ & Hhead & Hlast).
  eexists. split; [exact Hrun|].
  apply str_trim_nothing_to_do; [by apply trimmed_no_nul|done|done].
Qed.

Lemma str_trim_idempotent_witness :
  no_nul (lit " a b ") ∧
  ∃ m', str_trim (lit " a b " ++ [zero]) (Some 0) = Some (m', Some 0) ∧
        str_trim m' (Some 0) = Some (m', Some 0) ∧
        string_at m' 0 = Some (lit "a b").
Proof.
  assert (Hs : no_nul (lit " a b "))
    by (unfold no_nul; cbn; repeat constructor; discriminate).
  split; [exact Hs|].
  destruct str_trim_idempotent as [Hidem _].
  destruct (Hidem [] (lit " a b ") [] Hs) as (m' & Hrun & Hagain).
  exists m'. split; [exact Hrun|]. split; [exact Hagain|].
  vm_compute in Hrun. injection Hrun as <-. vm_compute. reflexivity.
Defined.

Lemma drop_spaces_all s : all_spaces s → drop_spaces s = [].
Proof.
  induction 1 as [|c s Hc _ IH]; [done|]. cbn. by rewrite Hc.
Qed.

(** X7. A string made of trimmed characters only becomes the empty string:
    the terminator is moved to the very place the pointer points to, though
    the second loop never looks at that place. *)
Theorem str_trim_all_whitespace (pre s rest : list ascii) :
  no_nul s → all_spaces s →
  ∃ m', str_trim (pre ++ s ++ zero :: rest) (Some (Z.of_nat (length pre)))
        = Some (m', Some (Z.of_nat (length pre))) ∧
        string_at m' (Z.of_nat (length pre)) = Some [] ∧
        load m' (Z.of_nat (length pre)) = Some zero ∧
        length m' = length (pre ++ s ++ zero :: rest).
Proof.
  intros Hs Hall.
  destruct (str_trim_run pre s rest Hs) as (rest' & Hrun & Hlen).
  assert (Hempty : trimmed s = [])
    by (unfold trimmed; by rewrite (drop_spaces_all s Hall)).
  rewrite Hempty in *. cbn [app] in *.
  eexists. split; [exact Hrun|].
  split; [apply (string_at_middle pre [] rest'); constructor|].
  split; [apply load_middle|].
  rewrite !(length_app pre). cbn [length]. cbn [length] in Hlen. lia.
Qed.

Lemma str_trim_all_whitespace_witness :
  no_nul (lit "   ") ∧ all_spaces (lit "   ") ∧
  ∃ m', str_trim (lit "k=" ++ lit "   " ++ zero :: lit "tail") (Some 2)
        = Some (m', Some 2) ∧
        string_at m' 2 = Some [].
Proof.
  assert (Hs : no_nul (lit "   "))
    by (unfold no_nul; cbn; repeat constructor; discriminate).
  assert (Hall : all_spaces (lit "   "))
    by (unfold all_spaces; cbn; repeat constructor).
  split; [exact Hs|]. split; [exact Hall|].
  destruct (str_trim_all_whitespace (lit "k=") (lit "   ") (lit "tail") Hs Hall)
    as (m' & Hrun & Hstr & _).
  exists m'. split; [exact Hrun | exact Hstr].
Defined.

(** X8. Every string starts with itself and ends with itself, and the empty
    string is a prefix and a suffix of every string; a string that is both
    no shorter than another and a prefix (or suffix) of it is equal to it. *)
Theorem str_starts_ends_with_self_and_empty (v ve s : list ascii) :
  cstring v s → cstring ve [] →
  str_starts_with (Some v) (Some v) = Some true ∧
  str_ends_with (Some v) (Some v) = Some true ∧
  str_starts_with (Some v) (Some ve) = Some true ∧
  str_ends_with (Some v) (Some ve) = Some true ∧
  (∀ v2 s2, cstring v2 s2 → (length s ≤ length s2)%nat →
            str_starts_with (Some v) (Some v2) = Some true → s2 = s) ∧
  (∀ v2 s2, cstring v2 s2 → (length s ≤ length s2)%nat →
            str_ends_with (Some v) (Some v2) = Some true → s2 = s).
Proof.
  intros Hv He.
  assert (Hstart : ∀ vp p, cstring vp p → p `prefix_of` s →
                           str_starts_with (Some v) (Some vp) = Some true).
  { intros vp p Hp Hpre.
    destruct (str_starts_with_spec v vp s p Hv Hp) as (b & -> & Hiff).
    f_equal. by apply Hiff. }
  assert (Hend : ∀ vx x, cstring vx x → x `suffix_of` s →
                         str_ends_with (Some v) (Some vx) = Some true).
  { intros vx x Hx Hsuf.
    destruct (str_ends_with_spec v vx s x Hv Hx) as (b & -> & Hiff).
    f_equal. by apply Hiff. }
  split; [by apply (Hstart v s)|]. split; [by apply (Hend v s)|].
  split; [apply (Hstart ve []); [done | apply prefix_nil]|].
  split; [apply (Hend ve []); [done | apply suffix_nil]|].
  split.
  - intros v2 s2 H2 Hlen Htrue.
    destruct (str_starts_with_spec v v2 s s2 Hv H2) as (b & Hrun & Hiff).
    rewrite Hrun in Htrue. injection Htrue as ->.
    apply prefix_length_eq; [by apply Hiff | done].
  - intros v2 s2 H2 Hlen Htrue.
    destruct (str_ends_with_spec v v2 s s2 Hv H2) as (b & Hrun & Hiff).
    rewrite Hrun in Htrue. injection Htrue as ->.
    apply suffix_length_eq; [by apply Hiff | done].
Qed.

Lemma str_starts_ends_with_self_and_empty_witness :
  cstring (c_lit "log") (lit "log") ∧ cstring (c_lit "") [] ∧
  str_starts_with (Some (c_lit "log")) (Some (c_lit "")) = Some true ∧
  str_ends_with (Some (c_lit "log")) (Some (c_lit "log")) = Some true.
Proof.
  assert (Hv : cstring (c_lit "log") (lit "log")).
  { split; [unfold no_nul; cbn; repeat constructor; discriminate|].
    by exists []. }
  assert (He : cstring (c_lit "") []).
  { split; [constructor|]. by exists []. }
  split; [exact Hv|]. split; [exact He|].
  destruct (str_starts_ends_with_self_and_empty _ _ _ Hv He)
    as (_ & Hend & Hstart & _).
  split; [exact Hstart | exact Hend].
Defined.

End StringProperties.

(* ===================================================================== *)
(** ** Further properties: the life of the logger *)
(* ===================================================================== *)

Section LoggerLifeProperties.

Ltac flat :=
  cbn [set_heap set_streams set_disk set_out set_err set_vars
       seek add_pending clear_pending
       vars disk denied unreadable faults streams out_shown out_pending err_shown
       heap heap_room junk now s_path s_pending s_pos log_file
       current_log_level].

Lemma fresh_stream_unused w : streams w !! fresh (dom (streams w)) = None.
Proof. apply not_elem_of_dom, is_fresh. Qed.

Lemma log_init_opens w path level :
  path ∉ denied w →
  log_init (Some path) level w = Returns true (log_opened w path level).
Proof.
  intros Hd. unfold log_init, mbind, M_bind, set_current_log_level, fopen.
  cbn. by rewrite bool_decide_eq_false_2.
Qed.

Lemma log_close_closes w id st :
  log_file (vars w) = Some (fstream id) → streams w !! id = Some st →
  log_close w = Returns () (log_closed w id st).
Proof.
  intros Hf Hst.
  unfold log_close, mbind, M_bind, get_log_file, fclose, fflush.
  rewrite Hf. rewrite (bool_decide_eq_true_2 (fstream id ≠ stdout)) by done.
  unfold mbind, M_bind, get, put, set_log_file. rewrite Hst.
  unfold log_closed. flat. by rewrite delete_insert_eq.
Qed.

Lemma emit_to_file w id st s :
  log_file (vars w) = Some (fstream id) → streams w !! id = Some st →
  emit s w = Returns () (set_streams w (<[id := add_pending st s]> (streams w))).
Proof.
  intros Hf Hst. unfold emit, mbind, M_bind, get_log_file, fprintf.
  by rewrite Hf, Hst.
Qed.

Lemma flush_log_to_file w id st :
  log_file (vars w) = Some (fstream id) → streams w !! id = Some st →
  flush_log w
  = Returns ()
      (set_streams
         (set_disk w (<[s_path st := file_data w (s_path st) +:+ s_pending st]>
                        (disk w)))
         (<[id := clear_pending st]> (streams w))).
Proof.
  intros Hf Hst. unfold flush_log, mbind, M_bind, get_log_file, fflush.
  by rewrite Hf, Hst.
Qed.

Lemma log_message_to_file w id st l msg :
  log_file (vars w) = Some (fstream id) → streams w !! id = Some st →
  level_le (threshold w) l → l ≠ LOG_FATAL → clock_fits w →
  log_message l msg w = Returns () (log_appended w id st (log_line w l msg)).
Proof.
  intros Hf Hst Hle Hl Hclock.
  unfold log_message, mbind, M_bind, get_log_file, get_current_log_level.
  rewrite Hf.
  rewrite (bool_decide_eq_false_2 (Some (fstream id) = None)) by done.
  cbn [mret M_ret]. unfold level_le, threshold in Hle.
  destruct (Z.ltb_spec (level_num l) (level_num (current_log_level (vars w))));
    [lia|].
  unfold get_timestamp, mbind, M_bind, get.
  cbn [Z.ltb Z.compare Pos.compare Pos.compare_cont].
  unfold clock_fits in Hclock.
  destruct (Z.leb_spec (Z.of_nat (String.length (now w)) + 1) 20); [|lia].
  cbn [mret M_ret]. rewrite level_name_table.
  rewrite (emit_to_file w id st) by done.
  rewrite (emit_to_file _ id (add_pending st _))
    by (done || apply lookup_insert_eq).
  rewrite (emit_to_file _ id (add_pending (add_pending st _) _))
    by (done || apply lookup_insert_eq).
  rewrite (flush_log_to_file _ id (add_pending (add_pending (add_pending st _) _) _))
    by (done || apply lookup_insert_eq).
  rewrite (bool_decide_eq_false_2 (l = LOG_FATAL)) by done.
  cbn [mret M_ret]. f_equal.
  unfold log_appended, log_line, file_data. flat.
  rewrite !insert_insert_eq, !append_assoc. done.
Qed.

(** One session on a file: open, one message that passes the threshold,
    close. *)
Lemma log_session w path T l msg :
  path ∉ denied w → level_le T l → l ≠ LOG_FATAL → clock_fits w →
  ∃ w1 w2 w3,
    log_init (Some path) T w = Returns true w1 ∧
    log_message l msg w1 = Returns () w2 ∧
    disk w2 !! path = Some (file_data w path +:+ log_line w l msg) ∧
    log_close w2 = Returns () w3 ∧
    disk w3 !! path = Some (file_data w path +:+ log_line w l msg) ∧
    streams w3 = streams w ∧ heap w3 = heap w ∧
    heap_room w3 = heap_room w ∧ faults w3 = faults w ∧
    out_shown w3 = out_shown w ∧ out_pending w3 = out_pending w ∧
    err_shown w3 = err_shown w ∧ log_file (vars w3) = None ∧
    unreadable w3 = unreadable w.
Proof.
  intros Hd Hle Hl Hclock.
  set (id := fresh (dom (streams w))).
  set (st := {| s_path := path; s_pending := ""; s_pos := O |}).
  assert (Hdata : file_data (log_opened w path T) path = file_data w path).
  { unfold file_data, log_opened. flat. by rewrite lookup_insert_eq. }
  exists (log_opened w path T),
         (log_appended (log_opened w path T) id st
            (log_line (log_opened w path T) l msg)),
         (log_closed (log_appended (log_opened w path T) id st
                        (log_line (log_opened w path T) l msg))
            id (clear_pending st)).
  subst st.
  split; [by apply log_init_opens|].
  split.
  { apply log_message_to_file; try done.
    unfold log_opened. flat. apply lookup_insert_eq. }
  split.
  { unfold log_appended. flat. rewrite lookup_insert_eq. by rewrite Hdata. }
  split.
  { apply log_close_closes; [done|].
    unfold log_appended. flat. apply lookup_insert_eq. }
  split.
  { unfold log_closed, log_appended. flat. rewrite lookup_insert_eq.
    unfold file_data at 1. flat. rewrite lookup_insert_eq.
    change (default "" (Some ?x)) with x.
    by rewrite Hdata, append_nil_r. }
  split.
  { unfold log_closed, log_appended, log_opened. flat.
    rewrite !insert_insert_eq. apply delete_insert_id, fresh_stream_unused. }
  by repeat split.
Qed.

(** X9. [log_close] can be called any number of times: after one call the
    destination is unset or standard output, the threshold is what it was,
    and a second call changes nothing. *)
Theorem log_close_twice (w : world) (old : string) :
  written w (destination w) = Some old →
  ∃ w', log_close w = Returns () w' ∧
        log_close w' = Returns () w' ∧
        (log_file (vars w') = None ∨ log_file (vars w') = Some stdout) ∧
        threshold w' = threshold w.
Proof.
  intros Hold. unfold destination in Hold.
  destruct (log_file (vars w)) as [[| |id]|] eqn:Hf.
  - exists w. unfold log_close, mbind, M_bind, get_log_file. rewrite Hf.
    rewrite (bool_decide_eq_false_2 (stdout ≠ stdout)) by (by intros H).
    split; [done|]. split; [done|]. split; [by right | done].
  - eexists. unfold log_close at 1, mbind, M_bind, get_log_file. rewrite Hf.
    rewrite (bool_decide_eq_true_2 (stderr ≠ stdout)) by done.
    split; [reflexivity|]. split; [done|]. split; [by left | done].
  - cbn in Hold. destruct (streams w !! id) as [st|] eqn:Hst; [|done].
    exists (log_closed w id st). split; [by apply log_close_closes|].
    split; [done|]. split; [by left | done].
  - exists w. unfold log_close, mbind, M_bind, get_log_file. rewrite Hf.
    split; [done|]. split; [done|]. split; [by left | done].
Qed.

Lemma log_close_twice_witness :
  ∃ w1 w2, log_init (Some "app.log") LOG_DEBUG disk_world = Returns true w1 ∧
           log_close w1 = Returns () w2 ∧ log_close w2 = Returns () w2 ∧
           log_file (vars w2) = None.
Proof.
  assert (Hinit : log_init (Some "app.log") LOG_DEBUG disk_world
                  = Returns true (log_opened disk_world "app.log" LOG_DEBUG))
    by (vm_compute; reflexivity).
  destruct (log_close_twice (log_opened disk_world "app.log" LOG_DEBUG) "old ")
    as (w2 & Hclose & Hagain & Hdest & _); [vm_compute; reflexivity|].
  exists (log_opened disk_world "app.log" LOG_DEBUG), w2.
  split; [exact Hinit|]. split; [exact Hclose|]. split; [exact Hagain|].
  vm_compute in Hclose. injection Hclose as <-. reflexivity.
Defined.

(** X10. [log_init] does not close what an earlier [log_init] opened: after
    two successful calls both streams are open, [log_file] points to the
    second, and [log_close] closes the second only.  The first stream stays
    open with nothing left that refers to it. *)
Theorem log_init_again_leaks_stream
    (w : world) (p1 p2 : string) (L1 L2 : LogLevel) :
  p1 ∉ denied w → p2 ∉ denied w →
  ∃ w1 w2 w3 id1 id2,
    log_init (Some p1) L1 w = Returns true w1 ∧
    log_file (vars w1) = Some (fstream id1) ∧
    log_init (Some p2) L2 w1 = Returns true w2 ∧
    log_file (vars w2) = Some (fstream id2) ∧
    id1 ≠ id2 ∧
    is_Some (streams w2 !! id1) ∧ is_Some (streams w2 !! id2) ∧
    log_close w2 = Returns () w3 ∧
    log_file (vars w3) = None ∧
    streams w3 !! id2 = None ∧
    (s_path <$> streams w3 !! id1) = Some p1.
Proof.
  intros H1 H2.
  set (id1 := fresh (dom (streams w))).
  set (w1 := log_opened w p1 L1).
  set (id2 := fresh (dom (streams w1))).
  set (w2 := log_opened w1 p2 L2).
  set (st2 := {| s_path := p2; s_pending := ""; s_pos := O |}).
  assert (Hopen1 : streams w1 !! id1
                   = Some {| s_path := p1; s_pending := ""; s_pos := O |})
    by (unfold w1, log_opened; flat; apply lookup_insert_eq).
  assert (Hne : id1 ≠ id2).
  { intros E. pose proof (fresh_stream_unused w1) as Hnone.
    fold id2 in Hnone. rewrite <- E in Hnone. congruence. }
  assert (Hopen2 : streams w2 !! id2 = Some st2)
    by (unfold w2, log_opened; flat; apply lookup_insert_eq).
  assert (Hkept : streams w2 !! id1
                  = Some {| s_path := p1; s_pending := ""; s_pos := O |}).
  { unfold w2, log_opened. flat. fold id2. rewrite lookup_insert_ne by done.
    exact Hopen1. }
  exists w1, w2, (log_closed w2 id2 st2), id1, id2.
  split; [by apply log_init_opens|]. split; [done|].
  split; [by apply log_init_opens|]. split; [done|]. split; [done|].
  split; [by eexists|]. split; [by eexists|].
  split; [by apply log_close_closes|]. split; [done|].
  unfold log_closed. flat. split; [apply lookup_delete_eq|].
  rewrite lookup_delete_ne by done. by rewrite Hkept.
Qed.

Lemma log_init_again_leaks_stream_witness :
  ("a.log" ∉ denied fresh_world) ∧ ("b.log" ∉ denied fresh_world) ∧
  ∃ w1 w2 w3 id1,
    log_init (Some "a.log") LOG_INFO fresh_world = Returns true w1 ∧
    log_init (Some "b.log") LOG_INFO w1 = Returns true w2 ∧
    log_close w2 = Returns () w3 ∧
    log_file (vars w3) = None ∧
    (s_path <$> streams w3 !! id1) = Some "a.log".
Proof.
  assert (Ha : "a.log" ∉ denied fresh_world) by (cbn; apply not_elem_of_empty).
  assert (Hb : "b.log" ∉ denied fresh_world) by (cbn; apply not_elem_of_empty).
  split; [exact Ha|]. split; [exact Hb|].
  destruct (log_init_again_leaks_stream fresh_world "a.log" "b.log"
              LOG_INFO LOG_INFO Ha Hb)
    as (w1 & w2 & w3 & id1 & id2 & Hi1 & _ & Hi2 & _ & _ & _ & _ & Hc & Hn & _ & Hleak).
  exists w1, w2, w3, id1.
  split; [exact Hi1|]. split; [exact Hi2|]. split; [exact Hc|].
  split; [exact Hn | exact Hleak].
Defined.

(** X11. A line logged to a file is in the file at once, before
    [log_close]: after [log_init] on a path that opens, a message at or
    above the threshold leaves the file with its earlier content followed
    by the line.  [log_close] then leaves the file as it is and no stream
    open, and the whole session writes nothing to the console. *)
Theorem log_line_reaches_file_at_once
    (w : world) (path : string) (T l : LogLevel) (msg : string) :
  path ∉ denied w → level_le T l → l ≠ LOG_FATAL → clock_fits w →
  ∃ w1 w2 w3,
    log_init (Some path) T w = Returns true w1 ∧
    log_message l msg w1 = Returns () w2 ∧
    disk w2 !! path = Some (file_data w path +:+ log_line w l msg) ∧
    log_close w2 = Returns () w3 ∧
    disk w3 !! path = Some (file_data w path +:+ log_line w l msg) ∧
    streams w3 = streams w ∧
    written w3 stdout = written w stdout ∧
    err_shown w3 = err_shown w.
Proof.
  intros Hd Hle Hl Hclock.
  destruct (log_session w path T l msg Hd Hle Hl Hclock)
    as (w1 & w2 & w3 & Hi & Hm & Hd2 & Hc & Hd3 & Hs & _ & _ & _ & Ho & Hp & He & _).
  exists w1, w2, w3. repeat split; try done.
  cbn. by rewrite Ho, Hp.
Qed.

Lemma log_line_reaches_file_at_once_witness :
  ("app.log" ∉ denied disk_world) ∧ clock_fits disk_world ∧
  ∃ w1 w2,
    log_init (Some "app.log") LOG_INFO disk_world = Returns true w1 ∧
    log_message LOG_WARNING "low disk" w1 = Returns () w2 ∧
    disk w2 !! "app.log"
    = Some ("old [2025-03-01 12:00:00] [WARNING] low disk" +:+ nl).
Proof.
  assert (Hd : "app.log" ∉ denied disk_world) by (cbn; apply not_elem_of_empty).
  assert (Hclock : clock_fits disk_world) by (unfold clock_fits; cbn; lia).
  split; [exact Hd|]. split; [exact Hclock|].
  destruct (log_line_reaches_file_at_once disk_world "app.log"
              LOG_INFO LOG_WARNING "low disk" Hd)
    as (w1 & w2 & w3 & Hi & Hm & Hd2 & _);
    [unfold level_le; cbn; lia | discriminate | exact Hclock |].
  exists w1, w2. split; [exact Hi|]. split; [exact Hm | exact Hd2].
Defined.

(** One call of [log_message], on either side of the threshold, with all
    that the next call needs to know. *)
Lemma log_message_step w l msg old :
  clock_fits w → written w (destination w) = Some old →
  ∃ w', log_message l msg w
        = (if bool_decide (l = LOG_FATAL) then Exits EXIT_FAILURE w'
           else Returns () w') ∧
        destination w' = destination w ∧
        threshold w' = threshold w ∧
        now w' = now w ∧
        written w' (destination w)
        = Some (old +:+ (if level_num l <? level_num (threshold w) then ""
                         else log_line w l msg)) ∧
        log_file (vars w') = Some (destination w).
Proof.
  intros Hclock Hold.
  destruct (Z.ltb_spec (level_num l) (level_num (threshold w))) as [Hlt|Hle].
  - exists (after_fallback w). rewrite (log_message_below w l msg Hlt).
    rewrite written_after_fallback, append_nil_r.
    rewrite (bool_decide_eq_false_2 (l = LOG_FATAL)); [done|].
    intros ->. destruct (threshold w); cbn in Hlt; lia.
  - rewrite log_message_fallback.
    rewrite <- (written_after_fallback w) in Hold.
    set (d := destination w) in *.
    assert (Hf : log_file (vars (after_fallback w)) = Some d) by done.
    assert (Hnow : now (after_fallback w) = now w) by done.
    assert (Hcur : current_log_level (vars (after_fallback w)) = threshold w)
      by done.
    generalize dependent (after_fallback w). intros w1 Hold Hf Hnow Hcur.
    unfold log_message, mbind, M_bind, get_log_file, get_current_log_level.
    rewrite Hf.
    rewrite (bool_decide_eq_false_2 (Some d = None)) by done.
    cbn [mret M_ret]. rewrite Hcur.
    destruct (Z.ltb_spec (level_num l) (level_num (threshold w))); [lia|].
    unfold get_timestamp, mbind, M_bind, get.
    cbn [Z.ltb Z.compare Pos.compare Pos.compare_cont].
    rewrite Hnow. unfold clock_fits in Hclock.
    destruct (Z.leb_spec (Z.of_nat (String.length (now w)) + 1) 20); [|lia].
    cbn [mret M_ret]. rewrite level_name_table.
    destruct (emit_effect w1 d ("[" +:+ now w +:+ "] [" +:+ level_name l +:+ "] ")
                old Hf Hold) as (w2 & -> & Hw2 & Hv2 & Hn2).
    rewrite <- Hv2 in Hf, Hcur.
    destruct (emit_effect w2 d msg _ Hf Hw2) as (w3 & -> & Hw3 & Hv3 & Hn3).
    rewrite <- Hv3 in Hf, Hcur.
    destruct (emit_effect w3 d nl _ Hf Hw3) as (w4 & -> & Hw4 & Hv4 & Hn4).
    rewrite <- Hv4 in Hf, Hcur.
    destruct (flush_log_effect w4 d _ Hf Hw4)
      as (w5 & -> & Hw5 & _ & Hv5 & Hn5).
    rewrite <- Hv5 in Hf, Hcur.
    exists w5. repeat split.
    + by destruct (bool_decide (l = LOG_FATAL)).
    + unfold destination. by rewrite Hf.
    + done.
    + congruence.
    + rewrite Hw5. unfold log_line. by rewrite !append_assoc.
    + done.
Qed.

(** X12. Messages logged one after the other (none of them fatal) leave
    their lines on the destination in that order, the ones below the
    threshold leaving nothing; threshold and destination are the same after
    as before. *)
Theorem log_each_keeps_order
    (entries : list (LogLevel * string)) (w : world) (old : string) :
  clock_fits w → written w (destination w) = Some old →
  Forall (λ e, e.1 ≠ LOG_FATAL) entries →
  ∃ w', log_each entries w = Returns () w' ∧
        written w' (destination w)
        = Some (old +:+ lines_of w (threshold w) entries) ∧
        threshold w' = threshold w ∧
        (entries ≠ [] → log_file (vars w') = Some (destination w)).
Proof.
  revert w old.
  induction entries as [|[l msg] entries IH]; intros w old Hclock Hold Hall.
  - exists w. cbn. by rewrite append_nil_r.
  - inversion Hall as [|? ? Hl Hall']; subst. cbn in Hl.
    destruct (log_message_step w l msg old Hclock Hold)
      as (w1 & Hrun & Hd & Hthr & Hnow & Hw & Hlf).
    rewrite (bool_decide_eq_false_2 (l = LOG_FATAL)) in Hrun by done.
    assert (Hclock1 : clock_fits w1)
      by (unfold clock_fits in *; by rewrite Hnow).
    rewrite <- Hd in Hw.
    destruct (IH w1 _ Hclock1 Hw Hall') as (w' & Hrest & Hw' & Hthr' & Hf').
    exists w'. cbn [log_each]. unfold mbind, M_bind. rewrite Hrun.
    split; [exact Hrest|]. rewrite Hd in Hw'. rewrite Hw'.
    split; [|split; [congruence|]].
    + cbn [lines_of]. rewrite Hthr, append_assoc. do 3 f_equal.
      clear -Hnow Hthr. induction entries as [|[l' m'] es IHes]; [done|].
      cbn [lines_of]. rewrite IHes. unfold log_line. by rewrite Hnow.
    + intros _. destruct entries as [|e es].
      * cbn in Hrest. by injection Hrest as <-.
      * rewrite <- Hd. by apply Hf'.
Qed.

Lemma log_each_keeps_order_witness :
  clock_fits fresh_world ∧
  ∃ w', log_each [(LOG_ERROR, "one"); (LOG_DEBUG, "two"); (LOG_INFO, "three")]%string
          fresh_world = Returns () w' ∧
        written w' stdout
        = Some (("[2025-03-01 12:00:00] [ERROR] one" +:+ nl)
                +:+ "[2025-03-01 12:00:00] [INFO] three" +:+ nl).
Proof.
  assert (Hclock : clock_fits fresh_world) by (unfold clock_fits; cbn; lia).
  split; [exact Hclock|].
  destruct (log_each_keeps_order
              [(LOG_ERROR, "one"); (LOG_DEBUG, "two"); (LOG_INFO, "three")]%string
              fresh_world "" Hclock eq_refl)
    as (w' & Hrun & Hw & _).
  - repeat constructor; discriminate.
  - exists w'. split; [exact Hrun | exact Hw].
Defined.

(** X13. A fatal message in the middle of such a sequence is the last thing
    the process does: the lines before it and its own line are on the
    destination, and nothing that follows is logged. *)
Theorem log_each_stops_at_fatal
    (before after : list (LogLevel * string)) (msg : string)
    (w : world) (old : string) :
  clock_fits w → written w (destination w) = Some old →
  Forall (λ e, e.1 ≠ LOG_FATAL) before →
  ∃ w', log_each (before ++ (LOG_FATAL, msg) :: after) w
        = Exits EXIT_FAILURE w' ∧
        written w' (destination w)
        = Some (old +:+ lines_of w (threshold w) before
                    +:+ log_line w LOG_FATAL msg).
Proof.
  revert w old.
  induction before as [|[l m] before IH]; intros w old Hclock Hold Hall.
  - destruct (log_message_step w LOG_FATAL msg old Hclock Hold)
      as (w1 & Hrun & _ & _ & _ & Hw & _).
    rewrite (bool_decide_eq_true_2 (LOG_FATAL = LOG_FATAL)) in Hrun by done.
    exists w1. cbn [app log_each lines_of]. unfold mbind, M_bind.
    rewrite Hrun. split; [done|]. rewrite Hw.
    destruct (Z.ltb_spec (level_num LOG_FATAL) (level_num (threshold w)));
      [destruct (threshold w); cbn in *; lia | done].
  - inversion Hall as [|? ? Hl Hall']; subst. cbn in Hl.
    destruct (log_message_step w l m old Hclock Hold)
      as (w1 & Hrun & Hd & Hthr & Hnow & Hw & _).
    rewrite (bool_decide_eq_false_2 (l = LOG_FATAL)) in Hrun by done.
    assert (Hclock1 : clock_fits w1)
      by (unfold clock_fits in *; by rewrite Hnow).
    rewrite <- Hd in Hw.
    destruct (IH w1 _ Hclock1 Hw Hall') as (w' & Hrest & Hw').
    exists w'. cbn [app log_each]. unfold mbind, M_bind. rewrite Hrun.
    split; [exact Hrest|]. rewrite Hd in Hw'. rewrite Hw'.
    cbn [lines_of]. rewrite Hthr, !append_assoc. do 3 f_equal.
    assert (Hlines : ∀ es, lines_of w1 (threshold w) es
                           = lines_of w (threshold w) es).
    { induction es as [|[l' m'] es IHes]; [done|].
      cbn [lines_of]. rewrite IHes. unfold log_line. by rewrite Hnow. }
    rewrite Hlines. unfold log_line. by rewrite Hnow.
Qed.

Lemma log_each_stops_at_fatal_witness :
  clock_fits fresh_world ∧
  ∃ w', log_each [(LOG_INFO, "start"); (LOG_FATAL, "stop"); (LOG_ERROR, "never")]%string
          fresh_world = Exits EXIT_FAILURE w' ∧
        written w' stdout
        = Some (("[2025-03-01 12:00:00] [INFO] start" +:+ nl)
                +:+ "[2025-03-01 12:00:00] [FATAL] stop" +:+ nl).
Proof.
  assert (Hclock : clock_fits fresh_world) by (unfold clock_fits; cbn; lia).
  split; [exact Hclock|].
  destruct (log_each_stops_at_fatal [(LOG_INFO, "start")]%string
              [(LOG_ERROR, "never")]%string "stop" fresh_world ""
              Hclock eq_refl)
    as (w' & Hrun & Hw).
  - repeat constructor; discriminate.
  - exists w'. split; [exact Hrun | exact Hw].
Defined.

End LoggerLifeProperties.

(* ===================================================================== *)
(** ** Further properties: the file helpers *)
(* ===================================================================== *)

Section FileProperties.

Ltac flat :=
  cbv [set_heap set_streams set_disk set_out set_err set_vars
       seek add_pending clear_pending];
  cbn [vars disk denied unreadable faults streams out_shown out_pending err_shown
       heap heap_room junk now s_path s_pending s_pos log_file
       current_log_level].

(** Opening a file for reading and closing it again leaves the world as it
    was. *)
Lemma open_close_restores w path data (st : stream) :
  disk w !! path = Some data →
  {| vars := vars w;
     disk := <[path := data +:+ ""]> (disk w);
     denied := denied w; unreadable := unreadable w; faults := faults w;
     streams := delete (fresh (dom (streams w)))
                  (<[fresh (dom (streams w)) := st]> (streams w));
     out_shown := out_shown w; out_pending := out_pending w;
     err_shown := err_shown w; heap := heap w; heap_room := heap_room w;
     junk := junk w; now := now w |} = w.
Proof.
  intros Hd. rewrite append_nil_r, (insert_id _ _ _ Hd).
  rewrite delete_insert_id by (apply not_elem_of_dom, is_fresh).
  by destruct w.
Qed.

(** X14. [file_exists] answers true exactly when opening the path for
    reading succeeds, and false otherwise: for [NULL], and also for a file
    that is there but that the system refuses to open; a file that is there
    and is not refused gives true.  It is a pure probe: the world after the
    call is the world before it, no stream stays open and the file is not
    touched. *)
Theorem file_exists_is_a_pure_open_probe (w : world) (path : string) :
  ∃ b, file_exists (Some path) w = Returns b w ∧
       (b = true ↔ ∃ f w1, fopen path mode_r w = Returns (Some f) w1) ∧
       (path ∈ unreadable w → b = false) ∧
       (is_Some (disk w !! path) → path ∉ unreadable w → b = true) ∧
       file_exists None w = Returns false w.
Proof.
  unfold file_exists, mbind, M_bind, fopen.
  destruct (disk w !! path) as [data|] eqn:Hd.
  - case_bool_decide as Hu.
    + exists false. split; [done|]. split; [|split; [done|split; [|done]]].
      * split; [done|]. by intros (f & w1 & ?).
      * by intros _ ?.
    + exists true. split; [|split; [|split; [done|split; done]]].
      * unfold fclose, fflush, mbind, M_bind, get, put. flat.
        rewrite lookup_insert_eq. flat. unfold file_data. flat. rewrite Hd.
        change (default "" (Some data)) with data.
        by rewrite insert_insert_eq, (open_close_restores w path data _ Hd).
      * split; [|done]. intros _. by do 2 eexists.
  - exists false. split; [done|]. split; [|split; [done|split; [|done]]].
    + split; [done|]. by intros (f & w1 & ?).
    + by intros [? ?].
Qed.

Lemma file_exists_is_a_pure_open_probe_witness :
  file_exists (Some "note.txt") guarded_world = Returns true guarded_world ∧
  ("secret.txt" ∈ unreadable guarded_world ∧
   disk guarded_world !! "secret.txt" = Some "key" ∧
   file_exists (Some "secret.txt") guarded_world = Returns false guarded_world) ∧
  file_exists (Some "absent.txt") guarded_world = Returns false guarded_world.
Proof.
  assert (Hprobe : ∀ path expected,
    (expected = true ↔
     ∃ f w1, fopen path mode_r guarded_world = Returns (Some f) w1) →
    file_exists (Some path) guarded_world = Returns expected guarded_world).
  { intros path expected Hexp.
    destruct (file_exists_is_a_pure_open_probe guarded_world path)
      as (b & Hrun & Hiff & _).
    rewrite Hrun. f_equal.
    destruct b, expected; try reflexivity.
    - symmetry. apply Hexp, Hiff. reflexivity.
    - apply Hiff, Hexp. reflexivity. }
  split; [|split; [split; [|split; [reflexivity|]]|]].
  - apply Hprobe. split; [intros _|reflexivity].
    do 2 eexists. vm_compute. reflexivity.
  - cbn. apply elem_of_singleton. reflexivity.
  - apply Hprobe. split; [discriminate|]. intros (f & w1 & H).
    vm_compute in H. discriminate H.
  - apply Hprobe. split; [discriminate|]. intros (f & w1 & H).
    vm_compute in H. discriminate H.
Defined.

(** X15. [file_size] answers the number of bytes of a file that opens for
    reading (0 for an empty file; the count is taken within the range of
    [long]), and -1 whenever the open fails, be the file missing or
    refused, and for [NULL].  In each case it leaves the world as it
    was. *)
Theorem file_size_counts_bytes (w : world) (path : string) :
  (∀ data f w1,
     disk w !! path = Some data →
     fopen path mode_rb w = Returns (Some f) w1 →
     Z.of_nat (String.length data) ≤ LONG_MAX →
     file_size (Some path) w = Returns (Z.of_nat (String.length data)) w) ∧
  (fopen path mode_rb w = Returns None w →
   file_size (Some path) w = Returns (-1) w) ∧
  file_size None w = Returns (-1) w.
Proof.
  split; [|split; [|done]].
  - intros data f w1 Hd Hopen _.
    apply fopen_read_opens in Hopen as [_ Hopen].
    unfold file_size, mbind, M_bind, fopen. rewrite Hd.
    rewrite (bool_decide_eq_false_2 (path ∈ unreadable w)) by done.
    unfold fseek_end, ftell. flat. rewrite lookup_insert_eq. flat.
    rewrite lookup_insert_eq. flat.
    unfold fclose, fflush, mbind, M_bind, get, put. flat.
    rewrite lookup_insert_eq. flat. unfold file_data. flat. rewrite Hd.
    change (default "" (Some data)) with data.
    by rewrite !insert_insert_eq, (open_close_restores w path data _ Hd).
  - intros Hopen. unfold file_size, mbind, M_bind. by rewrite Hopen.
Qed.

Lemma file_size_counts_bytes_witness :
  file_size (Some "note.txt") guarded_world = Returns 5 guarded_world ∧
  file_size (Some "secret.txt") guarded_world = Returns (-1) guarded_world ∧
  file_size (Some "absent.txt") guarded_world = Returns (-1) guarded_world.
Proof.
  split; [|split].
  - destruct (file_size_counts_bytes guarded_world "note.txt") as (Hsize & _ & _).
    eapply (Hsize "hello"); [reflexivity | vm_compute; reflexivity |].
    unfold LONG_MAX. cbn. lia.
  - destruct (file_size_counts_bytes guarded_world "secret.txt") as (_ & Hfail & _).
    apply Hfail. vm_compute. reflexivity.
  - destruct (file_size_counts_bytes guarded_world "absent.txt") as (_ & Hfail & _).
    apply Hfail. vm_compute. reflexivity.
Defined.

Lemma read_count_no_fault w path data :
  disk w !! path = Some data → faults w !! path = None →
  read_count w path = String.length data.
Proof.
  intros Hd Hf. unfold read_count, readable, file_data. cbn [s_path s_pos].
  rewrite Hd, Hf. change (default "" (Some data)) with data.
  rewrite Nat2Z.id, drop_0, take_ge, chars_length; [done|].
  by rewrite chars_length.
Qed.

(** What [file_read_all] leaves of a file it could read: the buffer on the
    heap and nothing else. *)
Lemma file_read_all_whole w path data :
  disk w !! path = Some data → path ∉ unreadable w →
  faults w !! path = None →
  Z.of_nat (String.length data) + 1 < 2 ^ 64 →
  (String.length data + 1 ≤ heap_room w)%nat →
  file_read_all (Some path) w
  = Returns (Some (fresh (dom (heap w))))
      (set_heap w
         (<[fresh (dom (heap w)) := list_ascii_of_string data ++ [zero]]> (heap w))
         (heap_room w - (String.length data + 1))%nat).
Proof.
  intros Hdisk Hopen Hfault Hsize Hroom.
  pose proof (read_count_no_fault w path data Hdisk Hfault) as Hcount.
  pose proof (readable_full w path data Hdisk Hcount) as Hfull.
  unfold file_read_all, mbind, M_bind, fopen. rewrite Hdisk.
  rewrite (bool_decide_eq_false_2 (path ∈ unreadable w)) by done.
  unfold fseek_end, fseek_set, ftell. flat. rewrite lookup_insert_eq. flat.
  unfold file_data. flat. rewrite Hdisk.
  change (default "" (Some data)) with data.
  rewrite lookup_insert_eq. flat. rewrite lookup_insert_eq. flat.
  rewrite !insert_insert_eq.
  rewrite !to_size_t_small by lia.
  unfold safe_malloc, malloc, mbind, M_bind. flat.
  replace (Z.to_nat (Z.of_nat (String.length data) + 1))
    with (String.length data + 1)%nat by lia.
  destruct (Nat.leb_spec (String.length data + 1) (heap_room w)); [|lia].
  rewrite (bool_decide_eq_false_2 (Some _ = None)) by done.
  cbn [andb mret M_ret]. unfold fread. flat.
  rewrite !lookup_insert_eq.
  rewrite (readable_frame w) by done. rewrite Hfull.
  rewrite length_replicate, chars_length.
  destruct (Nat.leb_spec (String.length data) (String.length data + 1)); [|lia].
  unfold fclose, fflush, mbind, M_bind, get, put. flat.
  rewrite ?lookup_insert_eq. flat. rewrite ?insert_insert_eq.
  rewrite !to_size_t_small by lia. rewrite Z.eqb_refl. cbn [negb].
  unfold poke. flat. rewrite lookup_insert_eq.
  rewrite drop_replicate.
  replace (String.length data + 1 - String.length data)%nat with 1%nat by lia.
  cbn [replicate]. rewrite <- chars_length, store_middle.
  cbn [mret M_ret]. f_equal. flat. rewrite insert_insert_eq.
  unfold file_data. flat. rewrite Hdisk.
  change (default "" (Some data)) with data.
  rewrite append_nil_r, (insert_id _ _ _ Hdisk).
  rewrite delete_insert_id by (apply not_elem_of_dom, is_fresh).
  by rewrite chars_length.
Qed.

(** X16. [file_read_all] of a file that opens for reading and can be read
    to its end returns a block that was not allocated before and holds the
    bytes of the file followed by a terminator; nothing else changes: the
    file is as it was and the stream the function opened is closed again.
    The C string in the block is the file's content when that has no zero
    byte, and as long as [file_size] says.  Sizes are within the range of
    [long], as [ftell] reports them. *)
Theorem file_read_all_returns_content
    (w w1 : world) (path data : string) (f : FILE) :
  disk w !! path = Some data →
  fopen path mode_rb w = Returns (Some f) w1 →
  faults w !! path = None →
  Z.of_nat (String.length data) ≤ LONG_MAX →
  (String.length data + 1 ≤ heap_room w)%nat →
  ∃ b w', file_read_all (Some path) w = Returns (Some b) w' ∧
          heap w !! b = None ∧
          heap w' = <[b := list_ascii_of_string data ++ [zero]]> (heap w) ∧
          disk w' = disk w ∧ streams w' = streams w ∧ vars w' = vars w ∧
          (no_nul (list_ascii_of_string data) →
           string_at (list_ascii_of_string data ++ [zero]) 0
           = Some (list_ascii_of_string data) ∧
           (Z.of_nat <$> strlen (list_ascii_of_string data ++ [zero]))
           = Some (Z.of_nat (String.length data))).
Proof.
  intros Hdisk Hopen Hfault Hsize Hroom.
  apply fopen_read_opens in Hopen as [_ Hopen].
  assert (Hfits : Z.of_nat (String.length data) + 1 < 2 ^ 64)
    by (unfold LONG_MAX in Hsize; lia).
  do 2 eexists. split; [by apply file_read_all_whole|].
  split; [apply not_elem_of_dom, is_fresh|]. repeat split.
  - by apply (string_at_middle [] (list_ascii_of_string data) []).
  - rewrite (strlen_cstring _ (list_ascii_of_string data)).
    + cbn. by rewrite chars_length.
    + split; [done|]. by exists [].
Qed.

Lemma file_read_all_returns_content_witness :
  disk guarded_world !! "note.txt" = Some "hello" ∧
  (∃ f w1, fopen "note.txt" mode_rb guarded_world = Returns (Some f) w1) ∧
  ∃ b w', file_read_all (Some "note.txt") guarded_world = Returns (Some b) w' ∧
          heap w' !! b = Some (c_lit "hello") ∧
          streams w' = streams guarded_world.
Proof.
  assert (Hd : disk guarded_world !! "note.txt" = Some "hello") by reflexivity.
  assert (Hopen : ∃ f w1, fopen "note.txt" mode_rb guarded_world
                          = Returns (Some f) w1)
    by (do 2 eexists; vm_compute; reflexivity).
  split; [exact Hd|]. split; [exact Hopen|]. destruct Hopen as (f & w1 & Hopen).
  destruct (file_read_all_returns_content guarded_world w1 "note.txt" "hello" f
              Hd Hopen)
    as (b & w' & Hrun & _ & Hheap & _ & Hstreams & _);
    [reflexivity | unfold LONG_MAX; cbn; lia | cbn; lia |].
  exists b, w'. split; [exact Hrun|]. split; [|exact Hstreams].
  rewrite Hheap. apply lookup_insert_eq.
Defined.

(** [file_read_all] of a path that is no file returns [NULL] and leaves the
    world as it was. *)
Lemma file_read_all_missing (w : world) (path : string) :
  disk w !! path = None →
  file_read_all (Some path) w = Returns None w.
Proof.
  intros Hd. unfold file_read_all, mbind, M_bind, fopen. by rewrite Hd.
Qed.

(** X17. What the logger wrote can be read back, when the system lets the
    process read the path as well as append to it: after a session that
    opens the path, logs one message at or above the threshold and closes,
    the path opens for reading and a [file_read_all] of it returns the
    earlier content of the file followed by the line.  The size of the file
    is within the range of [long], as [ftell] reports it. *)
Theorem logged_line_reads_back
    (w : world) (path : string) (T l : LogLevel) (msg : string) :
  path ∉ denied w → path ∉ unreadable w →
  level_le T l → l ≠ LOG_FATAL → clock_fits w →
  faults w !! path = None →
  Z.of_nat (String.length (file_data w path +:+ log_line w l msg)) ≤ LONG_MAX →
  (String.length (file_data w path +:+ log_line w l msg) + 1 ≤ heap_room w)%nat →
  ∃ w1 w2 w3 b w4,
    log_init (Some path) T w = Returns true w1 ∧
    log_message l msg w1 = Returns () w2 ∧
    log_close w2 = Returns () w3 ∧
    (∃ f w5, fopen path mode_rb w3 = Returns (Some f) w5) ∧
    file_read_all (Some path) w3 = Returns (Some b) w4 ∧
    heap w4 !! b
    = Some (list_ascii_of_string (file_data w path +:+ log_line w l msg)
            ++ [zero]).
Proof.
  intros Hd Hread Hle Hl Hclock Hfault Hsize Hroom.
  destruct (log_session w path T l msg Hd Hle Hl Hclock)
    as (w1 & w2 & w3 & Hi & Hm & _ & Hc & Hd3 & _ & _ & Hr3 & Hf3
        & _ & _ & _ & _ & Hu3).
  assert (Hread3 : path ∉ unreadable w3) by (by rewrite Hu3).
  exists w1, w2, w3. do 2 eexists.
  split; [exact Hi|]. split; [exact Hm|]. split; [exact Hc|].
  split; [|split].
  - unfold fopen. rewrite Hd3.
    rewrite (bool_decide_eq_false_2 (path ∈ unreadable w3)) by done.
    by do 2 eexists.
  - apply (file_read_all_whole w3 path _ Hd3 Hread3); [by rewrite Hf3| |].
    + unfold LONG_MAX in Hsize. lia.
    + by rewrite Hr3.
  - flat. apply lookup_insert_eq.
Qed.

Lemma logged_line_reads_back_witness :
  ("app.log" ∉ denied guarded_world) ∧ ("app.log" ∉ unreadable guarded_world) ∧
  clock_fits guarded_world ∧
  ∃ w1 w2 w3 b w4,
    log_init (Some "app.log") LOG_INFO guarded_world = Returns true w1 ∧
    log_message LOG_ERROR "x" w1 = Returns () w2 ∧
    log_close w2 = Returns () w3 ∧
    file_read_all (Some "app.log") w3 = Returns (Some b) w4 ∧
    heap w4 !! b
    = Some (lit ("old [2025-03-01 12:00:00] [ERROR] x" +:+ nl) ++ [zero]).
Proof.
  assert (Hd : "app.log" ∉ denied guarded_world) by (cbn; apply not_elem_of_empty).
  assert (Hread : "app.log" ∉ unreadable guarded_world)
    by (cbn; rewrite elem_of_singleton; discriminate).
  assert (Hclock : clock_fits guarded_world) by (unfold clock_fits; cbn; lia).
  split; [exact Hd|]. split; [exact Hread|]. split; [exact Hclock|].
  destruct (logged_line_reads_back guarded_world "app.log" LOG_INFO LOG_ERROR "x"
              Hd Hread ltac:(unfold level_le; cbn; lia) ltac:(discriminate)
              Hclock eq_refl ltac:(vm_compute; discriminate)
              ltac:(vm_compute; lia))
    as (w1 & w2 & w3 & b & w4 & Hi & Hm & Hc & _ & Hrun & Hheap).
  exists w1, w2, w3, b, w4.
  split; [exact Hi|]. split; [exact Hm|]. split; [exact Hc|].
  split; [exact Hrun | exact Hheap].
Defined.

End FileProperties.

(* ===================================================================== *)
(** ** Further properties: the console and the random range *)
(* ===================================================================== *)

Section ConsoleAndRandomProperties.

Lemma code_newline c : (code c =? code "010"%char) = true ↔ c = "010"%char.
Proof.
  rewrite Z.eqb_eq. split; [apply code_inj | by intros ->].
Qed.

Lemma await_newline_found pre : ∀ rest fuel,
  "010"%char ∉ pre → (length pre < fuel)%nat →
  await_newline fuel (pre ++ "010"%char :: rest) = Some rest.
Proof.
  induction pre as [|c pre IH]; intros rest fuel Hno Hfuel;
    (destruct fuel as [|fuel]; [cbn in Hfuel; lia|]).
  - done.
  - cbn [await_newline app getchar].
    apply not_elem_of_cons in Hno as [Hc Hno].
    destruct (code c =? code "010"%char) eqn:E;
      [apply code_newline in E; congruence|].
    cbn [negb]. apply IH; [done | cbn in Hfuel; lia].
Qed.

Lemma await_newline_starved fuel : ∀ stdin,
  "010"%char ∉ stdin → await_newline fuel stdin = None.
Proof.
  induction fuel as [|fuel IH]; intros stdin Hno; [done|].
  destruct stdin as [|c stdin].
  - cbn [await_newline getchar]. change (EOF =? code "010"%char) with false.
    cbn [negb]. by apply IH.
  - apply not_elem_of_cons in Hno as [Hc Hno].
    cbn [await_newline getchar].
    destruct (code c =? code "010"%char) eqn:E;
      [apply code_newline in E; congruence|].
    cbn [negb]. by apply IH.
Qed.

(** X18. [pause_screen] gives its prompt to standard output and then
    swallows the input up to and including the first newline, leaving what
    follows it unread.  On an input that ends without a newline it never
    returns: [getchar] answers [EOF] for ever and the loop only stops at a
    newline. *)
Theorem pause_screen_waits_for_newline :
  (∀ w pre rest fuel,
     "010"%char ∉ pre → (length pre < fuel)%nat →
     ∃ w', pause_screen fuel (pre ++ "010"%char :: rest) w
           = Returns (Some rest) w' ∧
           written w' stdout
           = (λ out, out +:+ "Press Enter to continue...") <$> written w stdout) ∧
  (∀ w stdin fuel,
     "010"%char ∉ stdin →
     ∃ w', pause_screen fuel stdin w = Returns None w').
Proof.
  split.
  - intros w pre rest fuel Hno Hfuel.
    unfold pause_screen, mbind, M_bind, fprintf.
    rewrite (await_newline_found pre rest fuel Hno Hfuel).
    eexists. split; [done|]. cbn. by rewrite append_assoc.
  - intros w stdin fuel Hno.
    unfold pause_screen, mbind, M_bind, fprintf.
    rewrite (await_newline_starved fuel stdin Hno). by eexists.
Qed.

Lemma pause_screen_waits_for_newline_witness :
  (∃ w', pause_screen 5 (lit "yes" ++ "010"%char :: lit "next") fresh_world
         = Returns (Some (lit "next")) w') ∧
  (∃ w', pause_screen 1000 (lit "yes") fresh_world = Returns None w').
Proof.
  destruct pause_screen_waits_for_newline as [Hfound Hstarved].
  split.
  - destruct (Hfound fresh_world (lit "yes") (lit "next") 5%nat)
      as (w' & Hrun & _); [|cbn; lia|].
    + cbn. rewrite !not_elem_of_cons. repeat split; try discriminate.
      apply not_elem_of_nil.
    + exists w'. exact Hrun.
  - apply Hstarved. cbn. rewrite !not_elem_of_cons.
    repeat split; try discriminate. apply not_elem_of_nil.
Defined.

Ltac int_bounds :=
  unfold is_int, rand_value, INT_MIN, INT_MAX in *;
  change (2 ^ 31) with 2147483648 in *;
  change (2 ^ 32) with 4294967296 in *.

(** X19. With the bounds in order, [random_int] returns a value between
    them, both included, for every value of [rand()] and every pair of
    [int] bounds but the pair [INT_MIN], [INT_MAX]; with equal bounds it
    returns the bound. *)
Theorem random_int_within_bounds (r min max : Z) :
  rand_value r → is_int min → is_int max → min ≤ max →
  ¬ (min = INT_MIN ∧ max = INT_MAX) →
  ∃ v, random_int r min max = Some v ∧ min ≤ v ≤ max ∧
       (min = max → v = min).
Proof.
  intros Hr Hmin Hmax Hle Hnot.
  destruct (random_int_between r min max Hr Hmin Hmax) as (v & Hv & Hrange).
  - rewrite Z.max_r, Z.min_l by lia. int_bounds. lia.
  - exists v. split; [done|]. lia.
Qed.

Lemma random_int_within_bounds_witness :
  rand_value 1804289383 ∧
  ∃ v, random_int 1804289383 (-3) 3 = Some v ∧ -3 ≤ v ≤ 3.
Proof.
  assert (Hr : rand_value 1804289383) by (int_bounds; lia).
  split; [exact Hr|].
  destruct (random_int_within_bounds 1804289383 (-3) 3 Hr)
    as (v & Hv & Hrange & _); try (int_bounds; lia).
  exists v. split; [exact Hv | exact Hrange].
Defined.

(** X20. The order in which the two bounds are given does not matter:
    [random_int] answers the same for [(a, b)] and for [(b, a)], whatever
    they are. *)
Theorem random_int_symmetric (r a b : Z) :
  random_int r a b = random_int r b a.
Proof.
  unfold random_int.
  destruct (Z.gtb_spec a b), (Z.gtb_spec b a); try done; try lia.
  by replace b with a by lia.
Qed.

(** X21. Every value of the range can come out: when [rand()] produces an
    offset [r] no larger than the width of the range, [random_int] returns
    the lower bound plus [r], so both bounds are reached (by 0 and by the
    width). *)
Theorem random_int_reaches_every_value (r min max : Z) :
  is_int min → is_int max → max - min < INT_MAX → 0 ≤ r ≤ max - min →
  random_int r min max = Some (min + r).
Proof.
  intros Hmin Hmax Hspan Hr. unfold random_int.
  destruct (Z.gtb_spec min max); [lia|].
  unfold int_sub. rewrite (int_wrap_id (max - min)) by (int_bounds; lia).
  unfold int_add. rewrite (int_wrap_id (max - min + 1)) by (int_bounds; lia).
  unfold int_rem.
  destruct (Z.eqb_spec (max - min + 1) 0); [lia|].
  destruct (Z.eqb_spec r INT_MIN); [int_bounds; lia|]. cbn [andb].
  cbn [mbind option_bind]. rewrite Z.rem_small by lia.
  rewrite int_wrap_id by (int_bounds; lia). done.
Qed.

Lemma random_int_reaches_every_value_witness :
  random_int 0 10 20 = Some 10 ∧ random_int 10 10 20 = Some 20.
Proof.
  split.
  - apply (random_int_reaches_every_value 0 10 20); int_bounds; lia.
  - apply (random_int_reaches_every_value 10 10 20); int_bounds; lia.
Defined.

End ConsoleAndRandomProperties.
